(** * accepts: the negotiation result cache and the lookup-normalisation layer

    A shallow embedding of [index.js] (the optimised [accepts] module) and
    the verification of its cache layer.

    - JavaScript values are the four shapes the module handles: [undefined],
      booleans, strings and arrays of strings.
    - A JavaScript [Map] is an association list in insertion order; [set]
      updates an existing key in place and appends a new one, and a key
      iterator is live.
    - The two module-level caches form the [store] that every operation
      threads; calls to the collaborators ([negotiator], [mime-types]) and
      the accesses to [negotiationCache] are recorded as [event]s, so that
      "the engine is not invoked" and "the cache is not touched" are
      statements about a call.
    - [negotiator] and [mime.lookup] are external: they are the variables
      of the section [Accepts]. *)

From Stdlib Require Import String Ascii List Bool Arith ZArith Lia.
Import ListNotations.
Open Scope string_scope.
Open Scope list_scope.

(* ===================================================================== *)
(** ** JavaScript values *)
(* ===================================================================== *)

Inductive value : Type :=
| VUndefined
| VBool (b : bool)
| VString (s : string)
| VArray (l : list string).

(** [ToBoolean]: what [if (v)], [!v] and [v || w] test. *)
Definition truthy (v : value) : bool :=
  match v with
  | VUndefined => false
  | VBool b => b
  | VString s => negb (s =? "")
  | VArray _ => true
  end.

(** [v !== undefined] *)
Definition defined (v : value) : bool :=
  match v with
  | VUndefined => false
  | _ => true
  end.

(** [typeof v === 'string'] *)
Definition typeof_string (v : value) : bool :=
  match v with
  | VString _ => true
  | _ => false
  end.

(** The text of a value known to be a string. *)
Definition text (v : value) : string :=
  match v with
  | VString s => s
  | _ => ""
  end.

(** [l[0]] for an array of strings. *)
Definition at0 (l : list string) : value :=
  match l with
  | [] => VUndefined
  | x :: _ => VString x
  end.

(** [v || false] *)
Definition or_false (v : value) : value :=
  if truthy v then v else VBool false.

(** [s.indexOf(pat)]: the index of the first occurrence, or [-1]. *)
Definition indexOf (s pat : string) : Z :=
  match String.index 0 pat s with
  | Some n => Z.of_nat n
  | None => (-1)%Z
  end.

(** [l.join(sep)] on an array of strings. *)
Definition join (sep : string) (l : list string) : string :=
  String.concat sep l.

(* ===================================================================== *)
(** ** JavaScript [Map] with string keys *)
(* ===================================================================== *)

Module JsMap.

(** Entries in insertion order. *)
Definition t : Type := list (string * value).

Definition empty : t := [].

(** [m.get(k)]: [undefined] when the key is absent. *)
Fixpoint get (m : t) (k : string) : value :=
  match m with
  | [] => VUndefined
  | (k', v) :: m' => if k' =? k then v else get m' k
  end.

(** [m.set(k, v)]: an existing key keeps its place, a new key goes last. *)
Fixpoint set (m : t) (k : string) (v : value) : t :=
  match m with
  | [] => [(k, v)]
  | (k', v') :: m' =>
      if k' =? k then (k', v) :: m' else (k', v') :: set m' k v
  end.

(** [m.delete(k)] *)
Fixpoint delete (m : t) (k : string) : t :=
  match m with
  | [] => []
  | (k', v') :: m' => if k' =? k then m' else (k', v') :: delete m' k
  end.

(** [m.size] *)
Definition size (m : t) : nat := length m.

Definition keys (m : t) : list string := map fst m.

Fixpoint position (m : t) (k : string) : option nat :=
  match m with
  | [] => None
  | (k', _) :: m' =>
      if k' =? k then Some 0 else option_map S (position m' k)
  end.

(** A key iterator ([m.keys()]) is live: it walks the entries in
    insertion order and skips the ones deleted meanwhile.  Its state is
    the number of live entries it has walked past; deleting one of those
    moves it back by one. *)
Definition iterator : Type := nat.

Definition start : iterator := 0.

(** [it.next()]: [(value, done)] and the advanced iterator; the value of
    an exhausted iterator is [undefined] ([None]). *)
Definition next (m : t) (it : iterator) : option string * bool * iterator :=
  match nth_error m it with
  | Some (k, _) => (Some k, false, S it)
  | None => (None, true, it)
  end.

Definition after_delete (m : t) (k : string) (it : iterator) : iterator :=
  match position m k with
  | Some i => if Nat.ltb i it then pred it else it
  | None => it
  end.

End JsMap.

(* ===================================================================== *)
(** ** Module state, events and the monad of the operations *)
(* ===================================================================== *)

Inductive family : Type := MediaType | Encoding | Charset | Language.

(** [var negotiationCache = new Map()], [var mimeCache = new Map()] *)
Record store : Type := mkStore {
  negotiationCache : JsMap.t;
  mimeCache : JsMap.t
}.

Definition CACHE_SIZE_LIMIT : nat := 1000.

(** The module as loaded: both caches empty. *)
Definition initial : store := mkStore JsMap.empty JsMap.empty.

Inductive event : Type :=
| EvNegotiator (f : family) (header : option string)
    (provided : option (list string))
| EvMimeLookup (token : string)
| EvCacheGet (key : string)
| EvCacheSize
| EvCacheKeys
| EvCacheDelete (key : option string)
| EvCacheSet (key : string) (v : value).

(** Events on the shared result cache. *)
Definition cache_event (e : event) : bool :=
  match e with
  | EvCacheGet _ | EvCacheSize | EvCacheKeys
  | EvCacheDelete _ | EvCacheSet _ _ => true
  | _ => false
  end.

Definition engine_event (e : event) : bool :=
  match e with
  | EvNegotiator _ _ _ => true
  | _ => false
  end.

(** A computation reads and updates the store and emits events. *)
Definition M (A : Type) : Type := store -> A * store * list event.

Definition ret {A} (a : A) : M A := fun s => (a, s, []).

Definition bind {A B} (m : M A) (f : A -> M B) : M B :=
  fun s =>
    let '(a, s1, e1) := m s in
    let '(b, s2, e2) := f a s1 in
    (b, s2, e1 ++ e2).

Declare Scope js_scope.
Delimit Scope js_scope with js.
Notation "x <- c ;; k" := (bind c (fun x => k))
  (at level 61, c at next level, right associativity) : js_scope.
Notation "' pat <- c ;; k" :=
  (bind c (fun x => match x with pat => k end))
  (at level 61, pat pattern, c at next level, right associativity) : js_scope.
Notation "c ;; k" := (bind c (fun _ => k))
  (at level 61, right associativity) : js_scope.
Open Scope js_scope.

Definition result {A} (r : A * store * list event) : A := fst (fst r).
Definition final {A} (r : A * store * list event) : store := snd (fst r).
Definition events {A} (r : A * store * list event) : list event := snd r.

(** *** Accesses to [negotiationCache] *)

Definition negotiationCache_get (k : string) : M value :=
  fun s => (JsMap.get (negotiationCache s) k, s, [EvCacheGet k]).

Definition negotiationCache_size : M nat :=
  fun s => (JsMap.size (negotiationCache s), s, [EvCacheSize]).

Definition negotiationCache_keys : M JsMap.iterator :=
  fun s => (JsMap.start, s, [EvCacheKeys]).

Definition keys_next (it : JsMap.iterator)
  : M (option string * bool * JsMap.iterator) :=
  fun s => (JsMap.next (negotiationCache s) it, s, []).

(** [negotiationCache.delete(k)] while the iterator [it] is open;
    [delete(undefined)] removes nothing, no key being [undefined]. *)
Definition negotiationCache_delete (k : option string) (it : JsMap.iterator)
  : M JsMap.iterator :=
  fun s =>
    match k with
    | Some key =>
        (JsMap.after_delete (negotiationCache s) key it,
         mkStore (JsMap.delete (negotiationCache s) key) (mimeCache s),
         [EvCacheDelete k])
    | None => (it, s, [EvCacheDelete k])
    end.

Definition negotiationCache_set (k : string) (v : value) : M unit :=
  fun s =>
    (tt, mkStore (JsMap.set (negotiationCache s) k v) (mimeCache s),
     [EvCacheSet k v]).

(** *** Accesses to [mimeCache] *)

Definition mimeCache_get (k : string) : M value :=
  fun s => (JsMap.get (mimeCache s) k, s, []).

Definition mimeCache_set (k : string) (v : value) : M unit :=
  fun s =>
    (tt, mkStore (negotiationCache s) (JsMap.set (mimeCache s) k v), []).

(* ===================================================================== *)
(** ** Requests and call shapes *)
(* ===================================================================== *)

(** [req.headers], restricted to the four fields the module reads; [None]
    is a header that was not sent. *)
Record headers_t : Type := mkHeaders {
  accept : option string;
  accept_encoding : option string;
  accept_charset : option string;
  accept_language : option string
}.

Record request : Type := mkRequest { req_headers : headers_t }.

(** An [Accepts] object: [this.headers] and the request its negotiator was
    built on. *)
Record accepts : Type := mkAccepts {
  headers : headers_t;
  negotiator : request
}.

(** [function Accepts (req)] *)
Definition Accepts (req : request) : accepts :=
  mkAccepts (req_headers req) req.

(** A header field as the value the code reads: [undefined] when the
    field was not sent. *)
Definition header_value (h : option string) : value :=
  match h with
  | Some s => VString s
  | None => VUndefined
  end.

(** The two documented ways to pass candidates: one array, or the tokens
    spread over the argument list. *)
Inductive arguments : Type :=
| Single (arr : list string)
| Spread (toks : list string).

(** The first formal parameter ([types_], [encodings_], ...). *)
Definition first_param (args : arguments) : value :=
  match args with
  | Single arr => VArray arr
  | Spread [] => VUndefined
  | Spread (t0 :: _) => VString t0
  end.

(** [Array.isArray(v)] *)
Definition isArray (v : value) : bool :=
  match v with
  | VArray _ => true
  | _ => false
  end.

(** "support flattened arguments": the local [types] after
<<
  if (types && !Array.isArray(types)) {
    types = new Array(arguments.length)
    for (var i = 0; i < types.length; i++) types[i] = arguments[i]
  }
>>
    It holds an array ([Some]): the array given, or the copy of the
    argument list when the first argument is a truthy string; or it is
    left at a falsy first argument ([None]), which the next test [!types]
    treats as no candidates. *)
Definition flattened (args : arguments) : option (list string) :=
  let p := first_param args in
  if truthy p && negb (isArray p) then
    match args with
    | Spread toks => Some toks
    | Single arr => Some arr
    end
  else
    match p with
    | VArray arr => Some arr
    | _ => None
    end.

(* ===================================================================== *)
(** ** Concrete collaborators for examples *)
(* ===================================================================== *)

(** The negotiator's answers for a client that accepts anything with equal
    weight (header [*/*], or [*] for the other families): every offered
    candidate, in the order offered; with no candidates, the wildcard. *)
Definition wildcard_client (star : string)
    (header : option string) (available : option (list string))
  : list string :=
  match available with
  | None => [star]
  | Some offered => offered
  end.

(** A client that accepts nothing that is offered. *)
Definition picky_client
    (header : option string) (available : option (list string))
  : list string := [].

(** A few rows of the extension table of [mime-types]. *)
Definition mime_db (token : string) : option string :=
  if token =? "html" then Some "text/html"
  else if token =? "json" then Some "application/json"
  else if token =? "png" then Some "image/png"
  else if token =? "txt" then Some "text/plain"
  else None.

Definition request_with_accept (h : option string) : request :=
  mkRequest (mkHeaders h None None None).

Definition request_with_encoding (h : option string) : request :=
  mkRequest (mkHeaders None h None None).

(** [n] distinct keys, for a cache filled to a given size. *)
Definition filler_key (i : nat) : string :=
  String (ascii_of_nat (48 + i / 100))
    (String (ascii_of_nat (48 + (i / 10) mod 10))
       (String (ascii_of_nat (48 + i mod 10)) "")).

Definition filled_cache (n : nat) : JsMap.t :=
  map (fun i => (filler_key i, VBool false)) (seq 0 n).

(* ===================================================================== *)
(** ** The module [index.js] *)
(* ===================================================================== *)

Section Accepts.

(** The collaborators.  A [Negotiator] built on a request answers from the
    request's header field: [negotiator.mediaTypes(available)] is
    [preferredMediaTypes(request.headers.accept, available)], and likewise
    for the other three families; an omitted argument is [None].
    [mime.lookup(token)] is a media type or [false] ([None]). *)
Variable preferredMediaTypes : option string -> option (list string) -> list string.
Variable preferredEncodings : option string -> option (list string) -> list string.
Variable preferredCharsets : option string -> option (list string) -> list string.
Variable preferredLanguages : option string -> option (list string) -> list string.
Variable mime_lookup : string -> option string.

Definition preferred (f : family)
  : option string -> option (list string) -> list string :=
  match f with
  | MediaType => preferredMediaTypes
  | Encoding => preferredEncodings
  | Charset => preferredCharsets
  | Language => preferredLanguages
  end.

(** The header field a family negotiates on. *)
Definition header_of (f : family) (h : headers_t) : option string :=
  match f with
  | MediaType => accept h
  | Encoding => accept_encoding h
  | Charset => accept_charset h
  | Language => accept_language h
  end.

(** [this.negotiator.mediaTypes(...)], [.encodings(...)], [.charsets(...)],
    [.languages(...)] *)
Definition negotiator_call (f : family) (this : accepts)
    (available : option (list string)) : M (list string) :=
  fun s =>
    let h := header_of f (req_headers (negotiator this)) in
    (preferred f h available, s, [EvNegotiator f h available]).

(** [mime.lookup(type)] *)
Definition mime_lookup_call (type : string) : M value :=
  fun s =>
    (match mime_lookup type with
     | Some m => VString m
     | None => VBool false
     end, s, [EvMimeLookup type]).

(** [function validMime (type)] *)
Definition validMime (type : value) : bool := typeof_string type.

(** [function extToMime (type)] *)
Definition extToMime (type : string) : value :=
  if (indexOf type "/" =? -1)%Z then
    match mime_lookup type with
    | Some m => VString m
    | None => VBool false
    end
  else VString type.

(** [function extToMimeCached (type)] *)
Definition extToMimeCached (type : string) : M value :=
  if negb (indexOf type "/" =? -1)%Z then ret (VString type)
  else
    cached <- mimeCache_get type ;;
    if defined cached then ret cached
    else
      result <- mime_lookup_call type ;;
      mimeCache_set type result ;;
      ret result.

(** The loop of [clearCacheEntries], [n] iterations left. *)
Fixpoint clear_loop (n : nat) (keys : JsMap.iterator) : M unit :=
  match n with
  | 0 => ret tt
  | S n' =>
      '(k, done, keys1) <- keys_next keys ;;
      if (done : bool) then ret tt
      else
        keys2 <- negotiationCache_delete k keys1 ;;
        clear_loop n' keys2
  end.

(** [function clearCacheEntries ()] *)
Definition clearCacheEntries : M unit :=
  keys <- negotiationCache_keys ;;
  clear_loop 100 keys.

(** The eviction loop written out in [types]:
    [negotiationCache.delete(keys.next().value)], [n] iterations left. *)
Fixpoint delete_loop (n : nat) (keys : JsMap.iterator) : M unit :=
  match n with
  | 0 => ret tt
  | S n' =>
      '(k, _, keys1) <- keys_next keys ;;
      keys2 <- negotiationCache_delete k keys1 ;;
      delete_loop n' keys2
  end.

(** The loop of [types] that fills [mimes] and [mimeMap]. *)
Fixpoint mime_loop (types : list string) (mimeMap : JsMap.t)
    (mimes : list string) : M (JsMap.t * list string) :=
  match types with
  | [] => ret (mimeMap, mimes)
  | type :: rest =>
      mimeType <- extToMimeCached type ;;
      if validMime mimeType then
        mime_loop rest (JsMap.set mimeMap (text mimeType) (VString type))
          (mimes ++ [text mimeType])
      else mime_loop rest mimeMap mimes
  end.

(** [Accepts.prototype.types] *)
Definition types (this : accepts) (args : arguments) : M value :=
  match flattened args with
  | None | Some [] =>
      (* no types, return all requested types *)
      all <- negotiator_call MediaType this None ;;
      ret (VArray all)
  | Some ((types0 :: _) as types) =>
      let header := header_value (accept (headers this)) in
      (* Fast path for no accept header *)
      if negb (truthy header) then ret (VString types0)
      else if (length types =? 1)%nat then
        (* Single type fast path *)
        singleMime <- extToMimeCached types0 ;;
        if negb (validMime singleMime) then ret (VBool false)
        else
          singleResult <-
            negotiator_call MediaType this (Some [text singleMime]) ;;
          ret (if truthy (at0 singleResult) then VString types0
               else VBool false)
      else
        (* Check cache for this combination *)
        let cacheKey := (text header ++ "|" ++ join "," types)%string in
        cached <- negotiationCache_get cacheKey ;;
        if defined cached then ret cached
        else
          '(mimeMap, mimes) <- mime_loop types JsMap.empty [] ;;
          accepts <- negotiator_call MediaType this (Some mimes) ;;
          let first := at0 accepts in
          let result :=
            if truthy first then JsMap.get mimeMap (text first)
            else VBool false in
          (* Cache the result *)
          size <- negotiationCache_size ;;
          (if (CACHE_SIZE_LIMIT <=? size)%nat then
             keys <- negotiationCache_keys ;;
             delete_loop 100 keys
           else ret tt) ;;
          negotiationCache_set cacheKey result ;;
          ret result
  end.

(** [Accepts.prototype.encodings] *)
Definition encodings (this : accepts) (args : arguments) : M value :=
  match flattened args with
  | None | Some [] =>
      (* no encodings, return all requested encodings *)
      all <- negotiator_call Encoding this None ;;
      ret (VArray all)
  | Some encodings =>
      (* Check cache *)
      let header := header_value (accept_encoding (headers this)) in
      let cacheKey :=
        ("enc:" ++ text header ++ "|" ++ join "," encodings)%string in
      cached <-
        (if truthy header then negotiationCache_get cacheKey
         else ret VUndefined) ;;
      if truthy header && defined cached then ret cached
      else
        accepted <- negotiator_call Encoding this (Some encodings) ;;
        let result := or_false (at0 accepted) in
        (* Cache result *)
        (if truthy header then
           size <- negotiationCache_size ;;
           (if (CACHE_SIZE_LIMIT <=? size)%nat then clearCacheEntries
            else ret tt) ;;
           negotiationCache_set cacheKey result
         else ret tt) ;;
        ret result
  end.

(** [Accepts.prototype.charsets] *)
Definition charsets (this : accepts) (args : arguments) : M value :=
  match flattened args with
  | None | Some [] =>
      (* no charsets, return all requested charsets *)
      all <- negotiator_call Charset this None ;;
      ret (VArray all)
  | Some charsets =>
      (* Check cache *)
      let header := header_value (accept_charset (headers this)) in
      let cacheKey :=
        ("chr:" ++ text header ++ "|" ++ join "," charsets)%string in
      cached <-
        (if truthy header then negotiationCache_get cacheKey
         else ret VUndefined) ;;
      if truthy header && defined cached then ret cached
      else
        accepted <- negotiator_call Charset this (Some charsets) ;;
        let result := or_false (at0 accepted) in
        (* Cache result *)
        (if truthy header then
           size <- negotiationCache_size ;;
           (if (CACHE_SIZE_LIMIT <=? size)%nat then clearCacheEntries
            else ret tt) ;;
           negotiationCache_set cacheKey result
         else ret tt) ;;
        ret result
  end.

(** [Accepts.prototype.languages] *)
Definition languages (this : accepts) (args : arguments) : M value :=
  match flattened args with
  | None | Some [] =>
      (* no languages, return all requested languages *)
      all <- negotiator_call Language this None ;;
      ret (VArray all)
  | Some languages =>
      (* Check cache *)
      let header := header_value (accept_language (headers this)) in
      let cacheKey :=
        ("lng:" ++ text header ++ "|" ++ join "," languages)%string in
      cached <-
        (if truthy header then negotiationCache_get cacheKey
         else ret VUndefined) ;;
      if truthy header && defined cached then ret cached
      else
        accepted <- negotiator_call Language this (Some languages) ;;
        let result := or_false (at0 accepted) in
        (* Cache result *)
        (if truthy header then
           size <- negotiationCache_size ;;
           (if (CACHE_SIZE_LIMIT <=? size)%nat then clearCacheEntries
            else ret tt) ;;
           negotiationCache_set cacheKey result
         else ret tt) ;;
        ret result
  end.

(** *** Calls *)

(** One call of a public operation on a context. *)
Record call : Type := mkCall {
  call_family : family;
  call_req : request;
  call_args : arguments
}.

(** [accepts(req).types(...)] and the like: a fresh context per call. *)
Definition run_call (c : call) : M value :=
  let this := Accepts (call_req c) in
  match call_family c with
  | MediaType => types this (call_args c)
  | Encoding => encodings this (call_args c)
  | Charset => charsets this (call_args c)
  | Language => languages this (call_args c)
  end.

(** The store after a sequence of calls, oldest first. *)
Definition run_calls (cs : list call) (s : store) : store :=
  fold_left (fun s c => final (run_call c s)) cs s.

(* --------------------------------------------------------------------- *)
(** *** Specification-level definitions *)
(* --------------------------------------------------------------------- *)

(** The family tag that prefixes a cache key; [types] writes none. *)
Definition family_tag (f : family) : string :=
  match f with
  | MediaType => ""
  | Encoding => "enc:"
  | Charset => "chr:"
  | Language => "lng:"
  end.

(** The key of (family, raw header value, ordered candidates). *)
Definition cache_key (f : family) (header : string) (cands : list string)
  : string :=
  (family_tag f ++ header ++ "|" ++ join "," cands)%string.

(** The key under which a call consults the result cache, if it does. *)
Definition cache_path (c : call) : option string :=
  match flattened (call_args c) with
  | None | Some [] => None
  | Some cands =>
      let header :=
        header_value (header_of (call_family c) (req_headers (call_req c))) in
      if truthy header then
        match call_family c with
        | MediaType =>
            if (length cands =? 1)%nat then None
            else Some (cache_key MediaType (text header) cands)
        | f => Some (cache_key f (text header) cands)
        end
      else None
  end.

(** The canonical identifiers handed to the engine by the general path of
    [types], and the reverse mapping it builds, with [extToMime] in place
    of its memoised version. *)
Definition mimes_of (types : list string) : list string :=
  flat_map (fun type =>
              if validMime (extToMime type) then [text (extToMime type)]
              else []) types.

Definition mimeMap_from (mimeMap : JsMap.t) (types : list string) : JsMap.t :=
  fold_left (fun m type =>
               if validMime (extToMime type)
               then JsMap.set m (text (extToMime type)) (VString type)
               else m) types mimeMap.

Definition mimeMap_of (types : list string) : JsMap.t :=
  mimeMap_from JsMap.empty types.

(** Written from the specification: a negotiation computed fresh, by
    delegating to the engine with the call's header and candidates, the
    result cache being bypassed. *)
Definition uncached (c : call) : value :=
  let f := call_family c in
  let h := header_of f (req_headers (call_req c)) in
  match flattened (call_args c) with
  | None | Some [] => VArray (preferred f h None)
  | Some ((first :: _) as cands) =>
      match f with
      | MediaType =>
          if negb (truthy (header_value h)) then VString first
          else if (length cands =? 1)%nat then
            if negb (validMime (extToMime first)) then VBool false
            else if truthy (at0 (preferred f h
                                   (Some [text (extToMime first)])))
                 then VString first else VBool false
          else
            let top := at0 (preferred f h (Some (mimes_of cands))) in
            if truthy top then JsMap.get (mimeMap_of cands) (text top)
            else VBool false
      | _ => or_false (at0 (preferred f h (Some cands)))
      end
  end.

(** The cache after a result is stored: the size check, the eviction of
    the 100 oldest entries, the insertion. *)
Definition insert_bounded (m : JsMap.t) (k : string) (v : value) : JsMap.t :=
  JsMap.set (if (CACHE_SIZE_LIMIT <=? JsMap.size m)%nat then skipn 100 m
             else m) k v.

(** What [mime.lookup] answers, as a value. *)
Definition lookup_value (token : string) : value :=
  match mime_lookup token with
  | Some m => VString m
  | None => VBool false
  end.

(** The resolver cache only holds answers of [mime.lookup]. *)
Definition mime_ok (s : store) : Prop :=
  forall token,
    JsMap.get (mimeCache s) token = VUndefined \/
    JsMap.get (mimeCache s) token = lookup_value token.

(** A negotiation outcome: a token or the [false] sentinel. *)
Definition is_outcome (v : value) : Prop :=
  v = VBool false \/ exists token, v = VString token.

Definition outcomes_only (m : JsMap.t) : Prop :=
  forall k v, In (k, v) m -> is_outcome v.

(** Tokens and headers for which keys are unambiguous. *)
Fixpoint no_char (c : ascii) (s : string) : bool :=
  match s with
  | EmptyString => true
  | String a s' => negb (Ascii.eqb a c) && no_char c s'
  end.

Definition plain_token (token : string) : bool :=
  no_char "," token && no_char "|" token.

Definition untagged (header : string) : bool :=
  negb (String.prefix "enc:" header) &&
  negb (String.prefix "chr:" header) &&
  negb (String.prefix "lng:" header).

Definition tokens_of (args : arguments) : list string :=
  match args with
  | Single arr => arr
  | Spread toks => toks
  end.

(** A call whose candidate tokens hold neither separator and, for [types],
    whose [Accept] value does not start like a family tag. *)
Definition plain_call (c : call) : Prop :=
  forallb plain_token (tokens_of (call_args c)) = true /\
  (call_family c = MediaType ->
   untagged (text (header_value (accept (req_headers (call_req c))))) = true).

(** The arguments of the [n] calls of [delete] made by the loop of
    [types]: the oldest keys, then [undefined] once the iterator is
    exhausted. *)
Fixpoint deleted_inline (n : nat) (m : JsMap.t) : list (option string) :=
  match n, m with
  | 0, _ => []
  | S n', [] => None :: deleted_inline n' []
  | S n', (k, _) :: m' => Some k :: deleted_inline n' m'
  end.

(** The events of the eviction step of a store operation of family [f]
    on the cache [m]: [types] runs its own loop, the others call
    [clearCacheEntries]. *)
Definition eviction_events (f : family) (m : JsMap.t) : list event :=
  if (CACHE_SIZE_LIMIT <=? JsMap.size m)%nat then
    EvCacheKeys ::
    match f with
    | MediaType => map EvCacheDelete (deleted_inline 100 m)
    | _ => map (fun k => EvCacheDelete (Some k)) (firstn 100 (JsMap.keys m))
    end
  else [].

Definition no_cache_events (evs : list event) : Prop :=
  Forall (fun e => cache_event e = false) evs.

Definition no_engine_events (evs : list event) : Prop :=
  Forall (fun e => engine_event e = false) evs.

Definition lookups_only (evs : list event) : Prop :=
  Forall (fun e => exists token, e = EvMimeLookup token) evs.

(** What a call does to the result cache: it bypasses it, it is served
    from it, or it misses and stores its result. *)
Inductive call_outcome (c : call) (s : store)
  : value * store * list event -> Prop :=
| Bypassed r s' evs :
    cache_path c = None ->
    negotiationCache s' = negotiationCache s ->
    no_cache_events evs ->
    (mime_ok s -> r = uncached c /\ mime_ok s') ->
    call_outcome c s (r, s', evs)
| Hit k :
    cache_path c = Some k ->
    defined (JsMap.get (negotiationCache s) k) = true ->
    call_outcome c s (JsMap.get (negotiationCache s) k, s, [EvCacheGet k])
| Missed k r s' pre evs :
    cache_path c = Some k ->
    JsMap.get (negotiationCache s) k = VUndefined ->
    negotiationCache s' = insert_bounded (negotiationCache s) k r ->
    no_cache_events pre ->
    evs = EvCacheGet k :: pre ++ EvCacheSize ::
          eviction_events (call_family c) (negotiationCache s) ++
          [EvCacheSet k r] ->
    (mime_ok s -> r = uncached c /\ mime_ok s') ->
    call_outcome c s (r, s', evs).

(** The candidate sequence a call works on. *)
Definition candidates (c : call) : list string :=
  match flattened (call_args c) with
  | Some cands => cands
  | None => []
  end.

(** [type] resolves to the canonical identifier [m]. *)
Definition resolves_to (type m : string) : bool :=
  match extToMime type with
  | VString m' => m' =? m
  | _ => false
  end.

(** The last candidate, in caller order, that resolves to [m]. *)
Fixpoint latest (m : string) (types : list string) : option string :=
  match types with
  | [] => None
  | type :: rest =>
      match latest m rest with
      | Some t => Some t
      | None => if resolves_to type m then Some type else None
      end
  end.

(** The result cache only holds, under the key of a plain call, the
    result that call computes fresh. *)
Definition coherent (s : store) : Prop :=
  mime_ok s /\
  forall k v,
    In (k, v) (negotiationCache s) ->
    forall c, plain_call c -> cache_path c = Some k -> v = uncached c.

(** The resolver cache as [extToMimeCached] keeps it: one entry per
    token, only for tokens without ["/"], each holding what [mime.lookup]
    answers for the token. *)
Definition resolver_ok (mc : JsMap.t) : Prop :=
  NoDup (JsMap.keys mc) /\
  forall token v,
    In (token, v) mc ->
    indexOf token "/" = (-1)%Z /\ v = lookup_value token.

(** The caller passes the candidate sequence [cands]: in one array, or
    spread over the argument list with a first token that is not the
    empty string. *)
Definition supplies (args : arguments) (cands : list string) : Prop :=
  args = Single cands \/ (args = Spread cands /\ hd_error cands <> Some "").

Arguments CACHE_SIZE_LIMIT : simpl never.
Arguments insert_bounded : simpl never.
Arguments eviction_events : simpl never.

(* --------------------------------------------------------------------- *)
(** *** [Map] facts *)
(* --------------------------------------------------------------------- *)

Lemma get_set_same (m : JsMap.t) k v : JsMap.get (JsMap.set m k v) k = v.
Proof.
  induction m as [|[k' v'] m IH]; simpl.
  - now rewrite String.eqb_refl.
  - destruct (k' =? k) eqn:E; simpl; now rewrite E.
Qed.

Lemma in_set (m : JsMap.t) k v k' v' :
  In (k', v') (JsMap.set m k v) -> (k' = k /\ v' = v) \/ In (k', v') m.
Proof.
  induction m as [|[k0 v0] m IH]; simpl.
  - intros [H|[]]. inversion H. auto.
  - destruct (k0 =? k) eqn:E; simpl.
    + apply String.eqb_eq in E. intros [H|H]; [inversion H; subst|]; auto.
    + intros [H|H]; auto. destruct (IH H); auto.
Qed.

Lemma size_set (m : JsMap.t) k v :
  JsMap.size (JsMap.set m k v) <= S (JsMap.size m).
Proof.
  unfold JsMap.size.
  induction m as [|[k0 v0] m IH]; simpl; auto.
  destruct (k0 =? k); simpl; lia.
Qed.

Lemma size_set_ge (m : JsMap.t) k v :
  JsMap.size m <= JsMap.size (JsMap.set m k v).
Proof.
  unfold JsMap.size.
  induction m as [|[k0 v0] m IH]; simpl; auto.
  destruct (k0 =? k); simpl; lia.
Qed.

Lemma get_in (m : JsMap.t) k :
  JsMap.get m k <> VUndefined -> In (k, JsMap.get m k) m.
Proof.
  induction m as [|[k0 v0] m IH]; simpl; [congruence|].
  destruct (k0 =? k) eqn:E; auto.
  apply String.eqb_eq in E. subst. auto.
Qed.

Lemma get_of_key (m : JsMap.t) k :
  In k (JsMap.keys m) -> In (k, JsMap.get m k) m.
Proof.
  induction m as [|[k0 v0] m IH]; simpl; [tauto|].
  destruct (k0 =? k) eqn:E.
  - apply String.eqb_eq in E. subst. auto.
  - intros [H|H]; [subst; now rewrite String.eqb_refl in E|auto].
Qed.

Lemma in_skipn {A} (x : A) n l : In x (skipn n l) -> In x l.
Proof.
  revert l. induction n as [|n IH]; intros [|y l]; simpl; auto.
Qed.

Lemma defined_spec v : defined v = false <-> v = VUndefined.
Proof. destruct v; simpl; split; congruence. Qed.

Lemma outcome_defined v : is_outcome v -> defined v = true.
Proof. intros [->|[t ->]]; reflexivity. Qed.

(** With only outcomes stored, a miss means the key is absent. *)
Lemma miss_absent (m : JsMap.t) k :
  outcomes_only m -> JsMap.get m k = VUndefined -> ~ In k (JsMap.keys m).
Proof.
  intros Hm Hk Hin. apply get_of_key in Hin. apply Hm in Hin.
  apply outcome_defined in Hin. rewrite Hk in Hin. discriminate.
Qed.

Lemma outcomes_only_skipn n (m : JsMap.t) :
  outcomes_only m -> outcomes_only (skipn n m).
Proof. intros H k v Hin. apply (H k v). eapply in_skipn; eauto. Qed.

Lemma outcomes_only_set (m : JsMap.t) k v :
  outcomes_only m -> is_outcome v -> outcomes_only (JsMap.set m k v).
Proof.
  intros H Hv k' v' Hin. apply in_set in Hin as [[-> ->]|Hin]; eauto.
Qed.

(* --------------------------------------------------------------------- *)
(** *** The two eviction loops *)
(* --------------------------------------------------------------------- *)

Lemma delete_loop_spec n s :
  delete_loop n JsMap.start s =
  (tt, mkStore (skipn n (negotiationCache s)) (mimeCache s),
   map EvCacheDelete (deleted_inline n (negotiationCache s))).
Proof.
  revert s. induction n as [|n IH]; intros [nc mc].
  - reflexivity.
  - destruct nc as [|[k v] nc]; simpl;
      unfold bind, keys_next, negotiationCache_delete, JsMap.next,
        JsMap.after_delete; simpl.
    + unfold JsMap.start in IH. rewrite IH. simpl.
      now rewrite skipn_nil.
    + rewrite String.eqb_refl. simpl.
      unfold JsMap.start in IH. rewrite IH. reflexivity.
Qed.

Lemma clear_loop_spec n s :
  clear_loop n JsMap.start s =
  (tt, mkStore (skipn n (negotiationCache s)) (mimeCache s),
   map (fun k => EvCacheDelete (Some k))
     (firstn n (JsMap.keys (negotiationCache s)))).
Proof.
  revert s. induction n as [|n IH]; intros [nc mc].
  - reflexivity.
  - destruct nc as [|[k v] nc]; simpl;
      unfold bind, keys_next, negotiationCache_delete, JsMap.next,
        JsMap.after_delete; simpl.
    + reflexivity.
    + rewrite String.eqb_refl. simpl.
      unfold JsMap.start in IH. rewrite IH. reflexivity.
Qed.

Lemma clearCacheEntries_spec s :
  clearCacheEntries s =
  (tt, mkStore (skipn 100 (negotiationCache s)) (mimeCache s),
   EvCacheKeys ::
   map (fun k => EvCacheDelete (Some k))
     (firstn 100 (JsMap.keys (negotiationCache s)))).
Proof.
  unfold clearCacheEntries, bind, negotiationCache_keys.
  rewrite clear_loop_spec. reflexivity.
Qed.

Lemma deleted_inline_keys n (m : JsMap.t) k :
  In (Some k) (deleted_inline n m) -> In k (JsMap.keys m).
Proof.
  revert m. induction n as [|n IH]; intros [|[k0 v0] m]; simpl; try tauto.
  - intros [H|H]; [discriminate|]. apply IH in H. exact H.
  - intros [H|H]; [inversion H; auto|]. right. now apply IH.
Qed.

Lemma in_firstn {A} (x : A) n l : In x (firstn n l) -> In x l.
Proof.
  revert l. induction n as [|n IH]; intros [|y l]; simpl; try tauto.
  intros [H|H]; auto.
Qed.

(* --------------------------------------------------------------------- *)
(** *** The canonical-type resolver *)
(* --------------------------------------------------------------------- *)

Lemma get_set_other (m : JsMap.t) k v k' :
  k <> k' -> JsMap.get (JsMap.set m k v) k' = JsMap.get m k'.
Proof.
  intros Hne. induction m as [|[k0 v0] m IH]; simpl.
  - destruct (k =? k') eqn:E; auto. apply String.eqb_eq in E. contradiction.
  - destruct (k0 =? k) eqn:E; simpl.
    + apply String.eqb_eq in E. subst k0.
      destruct (k =? k') eqn:E'; auto.
      apply String.eqb_eq in E'. contradiction.
    + destruct (k0 =? k'); auto.
Qed.

Lemma lookups_no_cache evs : lookups_only evs -> no_cache_events evs.
Proof.
  unfold lookups_only, no_cache_events. apply Forall_impl.
  intros e [t ->]. reflexivity.
Qed.

Lemma lookups_no_engine evs : lookups_only evs -> no_engine_events evs.
Proof.
  unfold lookups_only, no_engine_events. apply Forall_impl.
  intros e [t ->]. reflexivity.
Qed.

Lemma extToMimeCached_frame type s :
  negotiationCache (final (extToMimeCached type s)) = negotiationCache s /\
  lookups_only (events (extToMimeCached type s)).
Proof.
  unfold extToMimeCached.
  destruct (indexOf type "/" =? -1)%Z; simpl.
  - unfold bind, mimeCache_get. simpl.
    destruct (defined (JsMap.get (mimeCache s) type)); simpl.
    + split; [reflexivity|constructor].
    + split; [reflexivity|].
      repeat constructor. now exists type.
  - split; [reflexivity|constructor].
Qed.

Lemma extToMimeCached_ok type s :
  mime_ok s ->
  result (extToMimeCached type s) = extToMime type /\
  mime_ok (final (extToMimeCached type s)).
Proof.
  intros Hok. unfold extToMimeCached, extToMime.
  destruct (indexOf type "/" =? -1)%Z; simpl; [|now split].
  unfold bind, mimeCache_get. simpl.
  destruct (defined (JsMap.get (mimeCache s) type)) eqn:D; simpl.
  - split; [|exact Hok].
    destruct (Hok type) as [H|H]; [rewrite H in D; discriminate|exact H].
  - split; [reflexivity|].
    intros t. simpl. destruct (String.eqb_spec type t) as [->|Hne].
    + right. apply get_set_same.
    + rewrite get_set_other by exact Hne. apply Hok.
Qed.

Lemma mime_loop_frame types mimeMap mimes s :
  negotiationCache (final (mime_loop types mimeMap mimes s))
  = negotiationCache s /\
  lookups_only (events (mime_loop types mimeMap mimes s)).
Proof.
  revert mimeMap mimes s.
  induction types as [|type rest IH]; intros mimeMap mimes s; simpl.
  - split; [reflexivity|constructor].
  - unfold bind.
    destruct (extToMimeCached_frame type s) as [Hc He].
    destruct (extToMimeCached type s) as [[v s1] e1].
    unfold final, events in Hc, He. simpl in Hc, He.
    destruct (validMime v).
    + specialize (IH (JsMap.set mimeMap (text v) (VString type))
                    (mimes ++ [text v]) s1).
      destruct (mime_loop rest _ _ s1) as [[r s2] e2].
      unfold final, events in *. simpl in *.
      destruct IH as [IHc IHe]. split; [congruence|].
      apply Forall_app. now split.
    + specialize (IH mimeMap mimes s1).
      destruct (mime_loop rest _ _ s1) as [[r s2] e2].
      unfold final, events in *. simpl in *.
      destruct IH as [IHc IHe]. split; [congruence|].
      apply Forall_app. now split.
Qed.

Lemma mimes_of_cons type rest :
  mimes_of (type :: rest) =
  (if validMime (extToMime type) then [text (extToMime type)] else [])
  ++ mimes_of rest.
Proof. reflexivity. Qed.

Lemma mimeMap_from_cons mimeMap type rest :
  mimeMap_from mimeMap (type :: rest) =
  mimeMap_from
    (if validMime (extToMime type)
     then JsMap.set mimeMap (text (extToMime type)) (VString type)
     else mimeMap) rest.
Proof. reflexivity. Qed.

Lemma mime_loop_ok types mimeMap mimes s :
  mime_ok s ->
  result (mime_loop types mimeMap mimes s)
  = (mimeMap_from mimeMap types, mimes ++ mimes_of types) /\
  mime_ok (final (mime_loop types mimeMap mimes s)).
Proof.
  revert mimeMap mimes s.
  induction types as [|type rest IH]; intros mimeMap mimes s Hok.
  - simpl. rewrite app_nil_r. now split.
  - rewrite mimes_of_cons, mimeMap_from_cons. cbn [mime_loop].
    unfold bind.
    destruct (extToMimeCached_ok type s Hok) as [Hr Hs].
    destruct (extToMimeCached type s) as [[v s1] e1].
    unfold result, final in Hr, Hs. simpl in Hr, Hs. subst v.
    destruct (validMime (extToMime type)).
    + specialize (IH (JsMap.set mimeMap (text (extToMime type))
                        (VString type))
                    (mimes ++ [text (extToMime type)]) s1 Hs).
      destruct (mime_loop rest _ _ s1) as [[r s2] e2].
      unfold result, final in *. simpl in *.
      destruct IH as [IHr IHs]. split; [|exact IHs].
      rewrite IHr. now rewrite <- app_assoc.
    + specialize (IH mimeMap mimes s1 Hs).
      destruct (mime_loop rest _ _ s1) as [[r s2] e2].
      unfold result, final in *. simpl in *.
      destruct IH as [IHr IHs]. split; [|exact IHs].
      exact IHr.
Qed.

(* --------------------------------------------------------------------- *)
(** *** The operations, path by path *)
(* --------------------------------------------------------------------- *)

Lemma store_types k r s :
  (size <- negotiationCache_size ;;
   (if (CACHE_SIZE_LIMIT <=? size)%nat then
      keys <- negotiationCache_keys ;;
      delete_loop 100 keys
    else ret tt) ;;
   negotiationCache_set k r ;;
   ret r) s
  = (r, mkStore (insert_bounded (negotiationCache s) k r) (mimeCache s),
     EvCacheSize :: eviction_events MediaType (negotiationCache s)
     ++ [EvCacheSet k r]).
Proof.
  unfold bind at 1. unfold negotiationCache_size.
  unfold insert_bounded, eviction_events.
  generalize 100 as n. intros n.
  destruct (CACHE_SIZE_LIMIT <=? JsMap.size (negotiationCache s))%nat.
  - unfold bind, negotiationCache_keys, negotiationCache_set, ret.
    rewrite delete_loop_spec. reflexivity.
  - reflexivity.
Qed.

Lemma store_shared f k r s :
  f <> MediaType ->
  (size <- negotiationCache_size ;;
   (if (CACHE_SIZE_LIMIT <=? size)%nat then clearCacheEntries
    else ret tt) ;;
   negotiationCache_set k r) s
  = (tt, mkStore (insert_bounded (negotiationCache s) k r) (mimeCache s),
     EvCacheSize :: eviction_events f (negotiationCache s)
     ++ [EvCacheSet k r]).
Proof.
  intros Hf. unfold bind at 1. unfold negotiationCache_size.
  unfold insert_bounded, eviction_events.
  destruct (CACHE_SIZE_LIMIT <=? JsMap.size (negotiationCache s))%nat.
  - unfold bind, negotiationCache_set.
    rewrite clearCacheEntries_spec.
    destruct f; try contradiction; reflexivity.
  - reflexivity.
Qed.

Ltac bypass_no_candidates Hfl :=
  apply Bypassed;
  [ unfold cache_path; cbn [call_args]; now rewrite Hfl
  | reflexivity
  | repeat constructor
  | let Hok := fresh in
    intros Hok; split; [|exact Hok];
    unfold uncached; cbn [call_args]; now rewrite Hfl ].

Ltac sibling_outcome f op fld :=
  let Hfl := fresh "Hfl" in
  let Hh := fresh "Hh" in
  let He := fresh "He" in
  let D := fresh "D" in
  let Hok := fresh "Hok" in
  let h := fresh "h" in
  intros req args s;
  unfold run_call; cbn [call_family call_req call_args];
  unfold op;
  destruct (flattened args) as [[|c0 cs]|] eqn:Hfl;
  [ bypass_no_candidates Hfl | | bypass_no_candidates Hfl ];
  cbn [headers Accepts];
  destruct (fld (req_headers req)) as [h|] eqn:Hh;
  [ cbn [header_value truthy text]; destruct (h =? "") eqn:He;
    cbn [negb andb] | cbn [header_value truthy text negb andb] ];
  [ (* empty header: no cache *)
    apply Bypassed;
    [ unfold cache_path; cbn [call_args call_family call_req header_of];
      rewrite Hfl, Hh; cbn [header_value truthy]; now rewrite He
    | reflexivity
    | repeat constructor
    | intros Hok; split; [|exact Hok];
      unfold uncached; cbn [call_args call_family]; now rewrite Hfl ]
  | (* header present *)
    unfold bind at 1; unfold negotiationCache_get at 1;
    change (_ ++ h ++ "|" ++ join "," (c0 :: cs))%string
      with (cache_key f h (c0 :: cs));
    destruct (defined (JsMap.get (negotiationCache s)
                         (cache_key f h (c0 :: cs)))) eqn:D;
    [ cbn [ret app]; apply Hit;
      [ unfold cache_path; cbn [call_args call_family call_req header_of];
        rewrite Hfl, Hh; cbn [header_value truthy text]; now rewrite He
      | exact D ]
    | unfold bind at 1; unfold negotiator_call at 1; unfold bind at 1;
      rewrite (store_shared f) by discriminate; cbn [ret app];
      eapply Missed with (pre := [EvNegotiator f _ _]);
      [ unfold cache_path; cbn [call_args call_family call_req header_of];
        rewrite Hfl, Hh; cbn [header_value truthy text]; now rewrite He
      | now apply defined_spec
      | reflexivity
      | repeat constructor
      | cbn [app call_family]; now rewrite app_nil_r
      | intros Hok; split; [|exact Hok];
        unfold uncached; cbn [call_args call_family]; now rewrite Hfl ] ]
  | (* header absent: no cache *)
    apply Bypassed;
    [ unfold cache_path; cbn [call_args call_family call_req header_of];
      now rewrite Hfl, Hh
    | reflexivity
    | repeat constructor
    | intros Hok; split; [|exact Hok];
      unfold uncached; cbn [call_args call_family]; now rewrite Hfl ] ].

Lemma encodings_outcome req args s :
  call_outcome (mkCall Encoding req args) s
    (run_call (mkCall Encoding req args) s).
Proof. revert req args s. sibling_outcome Encoding encodings accept_encoding. Qed.

Lemma charsets_outcome req args s :
  call_outcome (mkCall Charset req args) s
    (run_call (mkCall Charset req args) s).
Proof. revert req args s. sibling_outcome Charset charsets accept_charset. Qed.

Lemma languages_outcome req args s :
  call_outcome (mkCall Language req args) s
    (run_call (mkCall Language req args) s).
Proof. revert req args s. sibling_outcome Language languages accept_language. Qed.
Lemma types_outcome req args s :
  call_outcome (mkCall MediaType req args) s
    (run_call (mkCall MediaType req args) s).
Proof.
  unfold run_call. cbn [call_family call_req call_args].
  unfold types.
  destruct (flattened args) as [[|t0 rest]|] eqn:Hfl;
    [ bypass_no_candidates Hfl | | bypass_no_candidates Hfl ].
  cbn [headers Accepts].
  assert (Hfast : truthy (header_value (accept (req_headers req))) = false ->
                  call_outcome (mkCall MediaType req args) s
                    (ret (VString t0) s)).
  { intros Hf. apply Bypassed.
    - unfold cache_path. cbn [call_args call_family call_req header_of].
      now rewrite Hfl, Hf.
    - reflexivity.
    - constructor.
    - intros Hok. split; [|exact Hok].
      unfold uncached. cbn [call_args call_family call_req header_of].
      now rewrite Hfl, Hf. }
  destruct (truthy (header_value (accept (req_headers req)))) eqn:Ht;
    [|now apply Hfast].
  clear Hfast. cbn [negb].
  destruct rest as [|t1 rest].
  - (* single type *)
    cbn [length Nat.eqb]. unfold bind at 1.
    destruct (extToMimeCached_frame t0 s) as [Hc He].
    pose proof (extToMimeCached_ok t0 s) as Hm.
    destruct (extToMimeCached t0 s) as [[v s1] e1].
    unfold final, events, result in Hc, He, Hm. cbn [fst snd] in Hc, He, Hm.
    assert (Hpath : cache_path (mkCall MediaType req args) = None).
    { unfold cache_path. cbn [call_args call_family call_req header_of].
      now rewrite Hfl, Ht. }
    destruct (validMime v) eqn:Hv; cbn [negb].
    + unfold bind, negotiator_call, ret. cbn [app].
      apply Bypassed; auto.
      * apply Forall_app. split; [now apply lookups_no_cache|].
        repeat constructor.
      * intros Hok. destruct (Hm Hok) as [-> Hs1]. split; [|exact Hs1].
        unfold uncached. cbn [call_args call_family call_req header_of].
        rewrite Hfl, Ht. cbn [negb length Nat.eqb]. now rewrite Hv.
    + unfold ret. rewrite app_nil_r.
      apply Bypassed; auto.
      * now apply lookups_no_cache.
      * intros Hok. destruct (Hm Hok) as [-> Hs1]. split; [|exact Hs1].
        unfold uncached. cbn [call_args call_family call_req header_of].
        rewrite Hfl, Ht. cbn [negb length Nat.eqb]. now rewrite Hv.
  - (* general path *)
    cbn [length Nat.eqb].
    set (cands := t0 :: t1 :: rest) in *.
    change (text (header_value (accept (req_headers req))) ++ "|" ++
            join "," cands)%string
      with (cache_key MediaType
              (text (header_value (accept (req_headers req)))) cands).
    set (k := cache_key MediaType _ cands).
    assert (Hpath : cache_path (mkCall MediaType req args) = Some k).
    { unfold cache_path. cbn [call_args call_family call_req header_of].
      now rewrite Hfl, Ht. }
    unfold bind at 1. unfold negotiationCache_get at 1.
    destruct (defined (JsMap.get (negotiationCache s) k)) eqn:D.
    + cbn [ret app]. now apply Hit.
    + unfold bind at 1.
      destruct (mime_loop_frame cands JsMap.empty [] s) as [Hc He].
      pose proof (mime_loop_ok cands JsMap.empty [] s) as Hm.
      destruct (mime_loop cands JsMap.empty [] s) as [[[mm ms] s1] e1].
      unfold final, events, result in Hc, He, Hm. cbn [fst snd] in Hc, He, Hm.
      unfold bind at 1. unfold negotiator_call at 1.
      rewrite store_types. rewrite Hc.
      eapply Missed with (pre := e1 ++ [EvNegotiator MediaType _ _]) (k := k).
      * exact Hpath.
      * now apply defined_spec.
      * reflexivity.
      * apply Forall_app. split; [now apply lookups_no_cache|].
        repeat constructor.
      * cbn [app call_family]. rewrite <- !app_assoc. reflexivity.
      * intros Hok. destruct (Hm Hok) as [Hr Hs1]. split; [|exact Hs1].
        inversion Hr; subst mm ms.
        unfold uncached. cbn [call_args call_family call_req header_of].
        rewrite Hfl, Ht. reflexivity.
Qed.

Lemma run_call_outcome c s : call_outcome c s (run_call c s).
Proof.
  destruct c as [[] req args].
  - apply types_outcome.
  - apply encodings_outcome.
  - apply charsets_outcome.
  - apply languages_outcome.
Qed.

(* --------------------------------------------------------------------- *)
(** *** Sequences of calls and invariants of the store *)
(* --------------------------------------------------------------------- *)

Lemma run_calls_cons c cs s :
  run_calls (c :: cs) s = run_calls cs (final (run_call c s)).
Proof. reflexivity. Qed.

Lemma run_calls_snoc cs c s :
  run_calls (cs ++ [c]) s = final (run_call c (run_calls cs s)).
Proof. unfold run_calls. now rewrite fold_left_app. Qed.

Lemma run_calls_invariant (P : store -> Prop) (Q : call -> Prop) :
  (forall s c, Q c -> P s -> P (final (run_call c s))) ->
  forall cs s, Forall Q cs -> P s -> P (run_calls cs s).
Proof.
  intros Hstep cs. induction cs as [|c cs IH]; intros s Hq Hs.
  - exact Hs.
  - rewrite run_calls_cons. inversion Hq; subst. apply IH; auto.
Qed.

Lemma Forall_True {A} (l : list A) : Forall (fun _ => True) l.
Proof. induction l; constructor; auto. Qed.

Ltac outcome_cases c s :=
  let H := fresh "Hout" in
  pose proof (run_call_outcome c s) as H;
  destruct (run_call c s) as [[? ?] ?];
  unfold final, result, events in *; cbn [fst snd] in *;
  inversion H as
    [ ?r ?s' ?evs Hpath Hcache Hquiet Hmime
    | ?k Hpath Hdef
    | ?k ?r ?s' ?pre ?evs Hpath Hmiss Hcache Hquiet Hevs Hmime ];
  subst; clear H.

Lemma mime_ok_initial : mime_ok initial.
Proof. intros t. now left. Qed.

Lemma mime_ok_step s c : mime_ok s -> mime_ok (final (run_call c s)).
Proof.
  intros Hok. outcome_cases c s; auto.
  - now apply Hmime.
  - now apply Hmime.
Qed.

Lemma mime_ok_reachable cs : mime_ok (run_calls cs initial).
Proof.
  apply run_calls_invariant with (Q := fun _ => True).
  - intros s c _. apply mime_ok_step.
  - apply Forall_True.
  - apply mime_ok_initial.
Qed.

Lemma limit_value : CACHE_SIZE_LIMIT = 1000.
Proof. reflexivity. Qed.

Lemma size_insert_bounded (m : JsMap.t) k v :
  JsMap.size m <= CACHE_SIZE_LIMIT ->
  JsMap.size (insert_bounded m k v) <= CACHE_SIZE_LIMIT.
Proof.
  intros Hm. unfold insert_bounded.
  pose proof limit_value as HL.
  destruct (CACHE_SIZE_LIMIT <=? JsMap.size m)%nat eqn:E.
  - apply Nat.leb_le in E.
    pose proof (size_set (skipn 100 m) k v) as Hs.
    unfold JsMap.size in *. rewrite length_skipn in Hs. lia.
  - apply Nat.leb_gt in E.
    pose proof (size_set m k v) as Hs. lia.
Qed.

Lemma size_step s c :
  JsMap.size (negotiationCache s) <= CACHE_SIZE_LIMIT ->
  JsMap.size (negotiationCache (final (run_call c s))) <= CACHE_SIZE_LIMIT.
Proof.
  intros Hs. outcome_cases c s; auto.
  - now rewrite Hcache.
  - rewrite Hcache. now apply size_insert_bounded.
Qed.

Lemma deleted_inline_full n (m : JsMap.t) :
  n <= JsMap.size m ->
  deleted_inline n m = map Some (firstn n (JsMap.keys m)).
Proof.
  unfold JsMap.size. revert m.
  induction n as [|n IH]; intros [|[k v] m] Hn; simpl in *; try lia; auto.
  f_equal. apply IH. lia.
Qed.

Lemma eviction_events_full f (m : JsMap.t) :
  CACHE_SIZE_LIMIT <= JsMap.size m ->
  eviction_events f m =
  EvCacheKeys ::
  map (fun k => EvCacheDelete (Some k)) (firstn 100 (JsMap.keys m)).
Proof.
  intros Hm. unfold eviction_events.
  apply Nat.leb_le in Hm as E. rewrite E.
  destruct f; try reflexivity.
  rewrite deleted_inline_full, map_map; [reflexivity|].
  rewrite limit_value in Hm. lia.
Qed.

Lemma eviction_events_kind f (m : JsMap.t) e :
  In e (eviction_events f m) ->
  e = EvCacheKeys \/ e = EvCacheDelete None \/
  exists k, e = EvCacheDelete (Some k) /\ In k (JsMap.keys m).
Proof.
  unfold eviction_events.
  destruct (CACHE_SIZE_LIMIT <=? JsMap.size m)%nat; [|intros []].
  generalize 100 as n. intros n [<-|Hin]; auto. right.
  destruct f.
  - apply in_map_iff in Hin as [[k|] [<- Hk]]; auto.
    right. exists k. split; auto. eapply deleted_inline_keys; eauto.
  - apply in_map_iff in Hin as [k [<- Hk]]. right. exists k.
    split; auto. eapply in_firstn; eauto.
  - apply in_map_iff in Hin as [k [<- Hk]]. right. exists k.
    split; auto. eapply in_firstn; eauto.
  - apply in_map_iff in Hin as [k [<- Hk]]. right. exists k.
    split; auto. eapply in_firstn; eauto.
Qed.

(** A call stores at most one entry, as its last step, and only on a
    miss. *)
Lemma set_event_inv c s k v :
  In (EvCacheSet k v) (events (run_call c s)) ->
  cache_path c = Some k /\
  JsMap.get (negotiationCache s) k = VUndefined /\
  result (run_call c s) = v /\
  negotiationCache (final (run_call c s))
  = insert_bounded (negotiationCache s) k v /\
  (mime_ok s -> v = uncached c) /\
  exists pre,
    no_cache_events pre /\
    events (run_call c s)
    = EvCacheGet k :: pre ++ EvCacheSize ::
      eviction_events (call_family c) (negotiationCache s) ++
      [EvCacheSet k v].
Proof.
  intros Hin. outcome_cases c s.
  - unfold no_cache_events in Hquiet. rewrite Forall_forall in Hquiet.
    apply Hquiet in Hin. discriminate.
  - destruct Hin as [Hin|[]]. discriminate.
  - destruct Hin as [Hin|Hin]; [discriminate|].
    apply in_app_or in Hin as [Hin|Hin].
    + unfold no_cache_events in Hquiet. rewrite Forall_forall in Hquiet.
      apply Hquiet in Hin. discriminate.
    + destruct Hin as [Hin|Hin]; [discriminate|].
      apply in_app_or in Hin as [Hin|Hin].
      * apply eviction_events_kind in Hin as [Hin|[Hin|[k' [Hin _]]]];
          discriminate.
      * destruct Hin as [Hin|[]]. inversion Hin; subst.
        repeat split; auto.
        -- intros Hok. now apply Hmime.
        -- exists pre. split; auto.
Qed.

(* --------------------------------------------------------------------- *)
(** *** Normalisation of the arguments *)
(* --------------------------------------------------------------------- *)

Lemma flattened_single arr : flattened (Single arr) = Some arr.
Proof. reflexivity. Qed.

Lemma flattened_spread first rest :
  first <> "" -> flattened (Spread (first :: rest)) = Some (first :: rest).
Proof.
  intros Hne. unfold flattened. cbn [first_param truthy isArray].
  destruct (String.eqb_spec first "") as [->|_]; [contradiction|reflexivity].
Qed.

Lemma flattened_spread_empty rest : flattened (Spread ("" :: rest)) = None.
Proof. reflexivity. Qed.

Lemma flattened_given args first rest :
  args = Single (first :: rest) \/
  (args = Spread (first :: rest) /\ first <> "") ->
  flattened args = Some (first :: rest).
Proof.
  intros [->|[-> Hne]]; [reflexivity|now apply flattened_spread].
Qed.

Lemma supplies_flattened args cands :
  supplies args cands -> cands <> [] -> flattened args = Some cands.
Proof.
  intros Hs Hne. destruct cands as [|first rest]; [contradiction|].
  apply flattened_given. destruct Hs as [->|[-> Hhd]]; [now left|right].
  split; [reflexivity|]. intros ->. now apply Hhd.
Qed.

(** C4 (amended): for each of the four operations, the tokens spread over
    the argument list and the same tokens in one array give the same
    result, the same store and the same events, provided the first token
    is not the empty string (the guard [if (types && ...)] leaves a falsy
    first argument alone). *)
Theorem spread_as_array f req toks s :
  hd_error toks <> Some "" ->
  run_call (mkCall f req (Spread toks)) s
  = run_call (mkCall f req (Single toks)) s.
Proof.
  intros Hhd. unfold run_call. cbn [call_family call_req call_args].
  destruct toks as [|first rest].
  - destruct f; reflexivity.
  - assert (Hne : first <> "") by (intros ->; now apply Hhd).
    unfold types, encodings, charsets, languages.
    rewrite (flattened_spread first rest Hne), flattened_single.
    reflexivity.
Qed.

(* --------------------------------------------------------------------- *)
(** *** The fast paths of [types] *)
(* --------------------------------------------------------------------- *)

(** C6 (amended): with no [Accept] header on the request, when the
    caller passes at least one candidate, in an array or spread over the
    arguments with a first token that is not the empty string, [types]
    returns the first candidate as it was given; the store is unchanged
    and no event is emitted: neither the engine nor the result cache is
    involved. *)
Theorem types_without_accept req args first rest s :
  accept (req_headers req) = None ->
  args = Single (first :: rest) \/
  (args = Spread (first :: rest) /\ first <> "") ->
  types (Accepts req) args s = (VString first, s, []).
Proof.
  intros Hh Hargs. unfold types. rewrite (flattened_given _ _ _ Hargs).
  cbn [headers Accepts]. rewrite Hh. reflexivity.
Qed.

(** C9 (amended): an [Accept] header that is the empty string takes the
    same fast path as an absent one: when the caller passes at least one
    candidate, in an array or spread over the arguments with a first
    token that is not the empty string, [types] returns the first
    candidate, leaves the store unchanged and emits no event. *)
Theorem types_with_empty_accept req args first rest s :
  accept (req_headers req) = Some "" ->
  args = Single (first :: rest) \/
  (args = Spread (first :: rest) /\ first <> "") ->
  types (Accepts req) args s = (VString first, s, []).
Proof.
  intros Hh Hargs. unfold types. rewrite (flattened_given _ _ _ Hargs).
  cbn [headers Accepts]. rewrite Hh. reflexivity.
Qed.

(** C7 (amended): with an [Accept] header that is present and not empty
    and exactly one candidate, passed in a one-element array or as a
    single argument that is not the empty string, [types] resolves the
    candidate; an invalid
    resolution gives [false] without a call of the engine; otherwise the
    engine is called once, with the singleton list of the resolved
    identifier, and the call returns the candidate as given when the
    engine's first answer is truthy and [false] otherwise.  In both cases
    the result cache is left as it was and no event on it is emitted. *)
Theorem types_single_candidate req args token h s :
  accept (req_headers req) = Some h ->
  h <> "" ->
  args = Single [token] \/ (args = Spread [token] /\ token <> "") ->
  let resolved := extToMimeCached token s in
  let mime := result resolved in
  let call := types (Accepts req) args s in
  (validMime mime = false ->
   call = (VBool false, final resolved, events resolved)) /\
  (validMime mime = true ->
   call =
   (if truthy (at0 (preferredMediaTypes (Some h) (Some [text mime])))
    then VString token else VBool false,
    final resolved,
    events resolved ++ [EvNegotiator MediaType (Some h) (Some [text mime])]))
  /\ negotiationCache (final call) = negotiationCache s
  /\ no_cache_events (events call)
  /\ lookups_only (events resolved)
  /\ (mime_ok s -> mime = extToMime token).
Proof.
  intros Hh Hne Hargs resolved mime call.
  pose proof (flattened_given _ _ _ Hargs) as Hfl.
  assert (Ht : truthy (header_value (accept (req_headers req))) = true).
  { rewrite Hh. cbn [header_value truthy].
    destruct (String.eqb_spec h "") as [->|_]; [contradiction|reflexivity]. }
  destruct (extToMimeCached_frame token s) as [Hc He].
  pose proof (extToMimeCached_ok token s) as Hm.
  assert (Hcall :
    call =
    if validMime mime then
      (if truthy (at0 (preferredMediaTypes (Some h) (Some [text mime])))
       then VString token else VBool false,
       final resolved,
       events resolved ++ [EvNegotiator MediaType (Some h) (Some [text mime])])
    else (VBool false, final resolved, events resolved)).
  { subst call mime resolved. unfold types. rewrite Hfl.
    cbn [headers Accepts]. rewrite Ht. cbn [negb length Nat.eqb].
    unfold bind at 1.
    destruct (extToMimeCached token s) as [[v s1] e1].
    unfold result, final, events. cbn [fst snd].
    destruct (validMime v); cbn [negb].
    - unfold bind, negotiator_call, ret.
      cbn [Accepts negotiator header_of preferred app]. now rewrite Hh.
    - unfold ret. now rewrite app_nil_r. }
  repeat split.
  - intros Hv. rewrite Hcall, Hv. reflexivity.
  - intros Hv. rewrite Hcall, Hv. reflexivity.
  - rewrite Hcall. destruct (validMime mime); exact Hc.
  - rewrite Hcall. destruct (validMime mime); unfold events; cbn [snd].
    + apply Forall_app. split; [now apply lookups_no_cache|].
      repeat constructor.
    + now apply lookups_no_cache.
  - exact He.
  - intros Hok. now apply Hm.
Qed.



(* --------------------------------------------------------------------- *)
(** *** The size bound and the eviction step *)
(* --------------------------------------------------------------------- *)

Lemma size_reachable cs :
  JsMap.size (negotiationCache (run_calls cs initial)) <= CACHE_SIZE_LIMIT.
Proof.
  apply run_calls_invariant with (Q := fun _ => True).
  - intros s c _. apply size_step.
  - apply Forall_True.
  - unfold initial, JsMap.size. simpl. lia.
Qed.

Lemma insert_bounded_full (m : JsMap.t) k v :
  CACHE_SIZE_LIMIT <= JsMap.size m ->
  insert_bounded m k v = JsMap.set (skipn 100 m) k v.
Proof.
  intros Hm. unfold insert_bounded. apply Nat.leb_le in Hm. now rewrite Hm.
Qed.

(** C5: whatever calls were made since the module was loaded, the result
    cache holds at most [CACHE_SIZE_LIMIT] (1000) entries; and a call that
    stores a result while the cache holds 1000 entries or more first
    deletes the 100 oldest keys, the insertion being its last step on the
    cache that is left. *)
Theorem cache_size_bounded :
  (forall cs,
      JsMap.size (negotiationCache (run_calls cs initial))
      <= CACHE_SIZE_LIMIT) /\
  (forall s c k v,
      CACHE_SIZE_LIMIT <= JsMap.size (negotiationCache s) ->
      In (EvCacheSet k v) (events (run_call c s)) ->
      exists before,
        events (run_call c s) = before ++ [EvCacheSet k v] /\
        (forall old,
            In old (firstn 100 (JsMap.keys (negotiationCache s))) ->
            In (EvCacheDelete (Some old)) before) /\
        negotiationCache (final (run_call c s))
        = JsMap.set (skipn 100 (negotiationCache s)) k v /\
        JsMap.size (skipn 100 (negotiationCache s))
        = JsMap.size (negotiationCache s) - 100).
Proof.
  split; [exact size_reachable|].
  intros s c k v Hfull Hin.
  apply set_event_inv in Hin
    as (_ & _ & _ & Hcache & _ & pre & _ & Hevs).
  rewrite eviction_events_full in Hevs by exact Hfull.
  exists (EvCacheGet k :: pre ++ EvCacheSize :: EvCacheKeys ::
          map (fun key => EvCacheDelete (Some key))
            (firstn 100 (JsMap.keys (negotiationCache s)))).
  repeat split.
  - rewrite Hevs. cbn [app]. rewrite <- app_assoc. reflexivity.
  - intros old Hold. right. apply in_or_app. right. right. right.
    apply in_map_iff. now exists old.
  - rewrite Hcache. now apply insert_bounded_full.
  - unfold JsMap.size. apply length_skipn.
Qed.

(* --------------------------------------------------------------------- *)
(** *** The reverse mapping of [types] *)
(* --------------------------------------------------------------------- *)

Lemma get_mimeMap_from mimeMap types m :
  JsMap.get (mimeMap_from mimeMap types) m =
  match latest m types with
  | Some t => VString t
  | None => JsMap.get mimeMap m
  end.
Proof.
  revert mimeMap. induction types as [|type rest IH]; intros mm.
  - reflexivity.
  - rewrite mimeMap_from_cons, IH. cbn [latest].
    destruct (latest m rest); [reflexivity|].
    unfold resolves_to.
    destruct (extToMime type) as [| |m'|];
      cbn [validMime typeof_string text]; try reflexivity.
    destruct (String.eqb_spec m' m) as [->|Hne].
    + apply get_set_same.
    + now apply get_set_other.
Qed.

Lemma latest_in m types t :
  latest m types = Some t -> In t types /\ resolves_to t m = true.
Proof.
  induction types as [|type rest IH]; cbn [latest]; [discriminate|].
  destruct (latest m rest) as [t'|].
  - intros H. inversion H; subst. destruct (IH eq_refl). split; [now right|auto].
  - destruct (resolves_to type m) eqn:E; [|discriminate].
    intros H. inversion H; subst. split; [now left|auto].
Qed.

Lemma latest_of_mime m types :
  In m (mimes_of types) -> exists t, latest m types = Some t.
Proof.
  induction types as [|type rest IH]; [intros []|].
  rewrite mimes_of_cons. cbn [latest]. intros Hin.
  destruct (latest m rest) as [t'|] eqn:L; [now exists t'|].
  apply in_app_or in Hin as [Hin|Hin].
  - unfold resolves_to.
    destruct (extToMime type) as [| |m'|];
      cbn [validMime typeof_string text] in Hin; try contradiction.
    destruct Hin as [->|[]]. rewrite String.eqb_refl. now exists type.
  - destruct (IH Hin) as [t Ht]. discriminate.
Qed.





Lemma truthy_header_text (o : option string) h :
  o = Some h -> h <> "" ->
  truthy (header_value o) = true /\ text (header_value o) = h.
Proof.
  intros -> Hne. cbn [header_value truthy text].
  destruct (String.eqb_spec h "") as [->|_]; [contradiction|now split].
Qed.


Lemma hit_served c s k :
  cache_path c = Some k ->
  defined (JsMap.get (negotiationCache s) k) = true ->
  run_call c s = (JsMap.get (negotiationCache s) k, s, [EvCacheGet k]).
Proof.
  intros Hk Hdef'.
  pose proof (run_call_outcome c s) as Hout.
  inversion Hout as
    [ r s' evs Hpath Hcache Hquiet Hmime
    | k0 Hpath Hdef
    | k0 r s' pre evs Hpath Hmiss Hcache Hquiet Hevs Hmime ].
  - congruence.
  - rewrite Hk in Hpath. inversion Hpath; subst. reflexivity.
  - rewrite Hk in Hpath. inversion Hpath; subst.
    rewrite Hmiss in Hdef'. discriminate.
Qed.


(* --------------------------------------------------------------------- *)
(** *** Under the engine's contract *)
(* --------------------------------------------------------------------- *)

Section Contract.

(** The contract of the Negotiation Engine: called with candidates, it
    answers with candidates among those offered. *)
Hypothesis engine_subset :
  forall f h offered x, In x (preferred f h (Some offered)) -> In x offered.

Lemma uncached_token c k :
  cache_path c = Some k ->
  uncached c = VBool false \/
  exists token, uncached c = VString token /\ In token (candidates c).
Proof.
  destruct c as [f req args].
  unfold cache_path, uncached, candidates.
  cbn [call_args call_family call_req].
  destruct (flattened args) as [[|c0 cs]|]; try discriminate.
  destruct (truthy (header_value (header_of f (req_headers req)))) eqn:Ht;
    [|discriminate].
  set (cands := c0 :: cs). intros Hk.
  assert (Hsib :
    or_false (at0 (preferred f (header_of f (req_headers req)) (Some cands)))
    = VBool false \/
    exists token,
      or_false (at0 (preferred f (header_of f (req_headers req))
                       (Some cands))) = VString token /\ In token cands).
  { pose proof (engine_subset f (header_of f (req_headers req)) cands) as Hsub.
    destruct (preferred f (header_of f (req_headers req)) (Some cands))
      as [|x l]; [now left|].
    unfold or_false. cbn [at0 truthy].
    destruct (x =? ""); [now left|right].
    exists x. split; [reflexivity|]. apply Hsub. now left. }
  destruct f; try exact Hsib. clear Hsib.
  cbn [negb].
  destruct (length cands =? 1)%nat; [discriminate|].
  pose proof (engine_subset MediaType (header_of MediaType (req_headers req))
                (mimes_of cands)) as Hsub.
  destruct (preferred MediaType (header_of MediaType (req_headers req))
              (Some (mimes_of cands))) as [|x l]; [now left|].
  cbn [at0 truthy text]. destruct (x =? ""); [now left|right].
  cbn [negb]. unfold mimeMap_of. rewrite get_mimeMap_from.
  destruct (latest_of_mime x cands (Hsub x (or_introl eq_refl))) as [t Ht'].
  rewrite Ht'. exists t. split; [reflexivity|].
  now apply latest_in in Ht'.
Qed.

Lemma uncached_outcome c k : cache_path c = Some k -> is_outcome (uncached c).
Proof.
  intros Hk. destruct (uncached_token c k Hk) as [->|[t [-> _]]].
  - now left.
  - right. now exists t.
Qed.

Lemma outcomes_step s c :
  mime_ok s ->
  outcomes_only (negotiationCache s) ->
  outcomes_only (negotiationCache (final (run_call c s))).
Proof.
  intros Hok Hs. outcome_cases c s; auto.
  - now rewrite Hcache.
  - rewrite Hcache. unfold insert_bounded. apply outcomes_only_set.
    + destruct (CACHE_SIZE_LIMIT <=? _)%nat; auto.
      now apply outcomes_only_skipn.
    + destruct (Hmime Hok) as [-> _]. eapply uncached_outcome; eauto.
Qed.

Lemma outcomes_reachable cs :
  outcomes_only (negotiationCache (run_calls cs initial)).
Proof.
  apply (run_calls_invariant
           (fun s => mime_ok s /\ outcomes_only (negotiationCache s))
           (fun _ => True)).
  - intros s c _ [Hok Hs]. split.
    + now apply mime_ok_step.
    + now apply outcomes_step.
  - apply Forall_True.
  - split; [apply mime_ok_initial|]. intros k v [].
Qed.

Lemma get_absent (m : JsMap.t) k :
  ~ In k (JsMap.keys m) -> JsMap.get m k = VUndefined.
Proof.
  induction m as [|[k0 v0] m IH]; cbn [JsMap.get JsMap.keys map fst In];
    [reflexivity|].
  intros Hn. destruct (String.eqb_spec k0 k) as [->|_]; [tauto|].
  apply IH. tauto.
Qed.

(** C10: under the engine's contract, every value a call writes into the
    result cache is [false] or one of the call's candidate tokens; the
    cache of the module therefore never holds [undefined], the test
    [cached !== undefined] fails exactly for the keys that are absent, and
    a call whose key holds [false] returns [false] from the cache: its
    only event is the lookup of the key, and the store is unchanged. *)
Theorem stored_values_are_outcomes :
  (forall cs c k v,
      In (EvCacheSet k v) (events (run_call c (run_calls cs initial))) ->
      v = VBool false \/
      exists token, v = VString token /\ In token (candidates c)) /\
  (forall cs k v,
      In (k, v) (negotiationCache (run_calls cs initial)) ->
      is_outcome v /\ v <> VUndefined) /\
  (forall cs k,
      defined (JsMap.get (negotiationCache (run_calls cs initial)) k) = false
      <-> ~ In k (JsMap.keys (negotiationCache (run_calls cs initial)))) /\
  (forall s c k,
      cache_path c = Some k ->
      JsMap.get (negotiationCache s) k = VBool false ->
      run_call c s = (VBool false, s, [EvCacheGet k])).
Proof.
  repeat split.
  - intros cs c k v Hin.
    apply set_event_inv in Hin as (Hk & _ & _ & _ & Hv & _).
    rewrite (Hv (mime_ok_reachable cs)). eapply uncached_token; eauto.
  - eapply outcomes_reachable; eauto.
  - intros ->. eapply outcomes_reachable in H as [H|[t H]]; discriminate.
  - intros Hd. apply defined_spec in Hd.
    apply miss_absent; auto. apply outcomes_reachable.
  - intros Hn. apply defined_spec. now apply get_absent.
  - intros s c k Hk Hv.
    rewrite (hit_served c s k Hk); rewrite Hv; reflexivity.
Qed.

(** C8: under the engine's contract, when a call stores a result, its key
    is not in the cache at that point, so that none of the deletions of
    the eviction step is on that key, and the key holds the result when
    the call returns.  On an empty cache both eviction loops remove
    nothing: [clearCacheEntries] stops at once, and the loop of [types]
    only deletes [undefined]. *)
Theorem eviction_spares_new_entry :
  (forall cs c k v,
      let s := run_calls cs initial in
      In (EvCacheSet k v) (events (run_call c s)) ->
      ~ In k (JsMap.keys (negotiationCache s)) /\
      ~ In (EvCacheDelete (Some k)) (events (run_call c s)) /\
      JsMap.get (negotiationCache (final (run_call c s))) k = v) /\
  (forall mc,
      clearCacheEntries (mkStore JsMap.empty mc)
      = (tt, mkStore JsMap.empty mc, [EvCacheKeys])) /\
  (forall mc,
      final (delete_loop 100 JsMap.start (mkStore JsMap.empty mc))
      = mkStore JsMap.empty mc /\
      forall e,
        In e (events (delete_loop 100 JsMap.start (mkStore JsMap.empty mc)))
        -> e = EvCacheDelete None).
Proof.
  split; [|split].
  - intros cs c k v s Hin.
    apply set_event_inv in Hin
      as (_ & Hmiss & _ & Hcache & _ & pre & Hpre & Hevs).
    assert (Habs : ~ In k (JsMap.keys (negotiationCache s))).
    { apply miss_absent; auto. apply outcomes_reachable. }
    repeat split.
    + exact Habs.
    + rewrite Hevs. intros [Hd|Hd]; [discriminate|].
      apply in_app_or in Hd as [Hd|Hd].
      * unfold no_cache_events in Hpre. rewrite Forall_forall in Hpre.
        apply Hpre in Hd. discriminate.
      * destruct Hd as [Hd|Hd]; [discriminate|].
        apply in_app_or in Hd as [Hd|[Hd|[]]]; [|discriminate].
        apply eviction_events_kind in Hd as [Hd|[Hd|[k' [Hd Hk']]]];
          try discriminate.
        inversion Hd; subst. contradiction.
    + rewrite Hcache. unfold insert_bounded. apply get_set_same.
  - intros mc. reflexivity.
  - intros mc. rewrite delete_loop_spec. unfold final, events.
    cbn [fst snd negotiationCache mimeCache]. unfold JsMap.empty.
    rewrite skipn_nil. split; [reflexivity|].
    generalize 100 as n. induction n as [|n IH]; cbn [deleted_inline map In].
    + tauto.
    + intros e [<-|Hin]; auto.
Qed.

End Contract.

(* --------------------------------------------------------------------- *)
(** *** Cache keys *)
(* --------------------------------------------------------------------- *)

Lemma string_app_assoc (a b c : string) :
  (a ++ b ++ c)%string = ((a ++ b) ++ c)%string.
Proof.
  induction a as [|x a IH]; cbn [String.append]; [reflexivity|].
  now rewrite IH.
Qed.

Lemma no_char_app c a b :
  no_char c (a ++ b)%string = no_char c a && no_char c b.
Proof.
  induction a as [|x a IH]; cbn [String.append no_char]; [reflexivity|].
  now rewrite IH, andb_assoc.
Qed.

Lemma no_char_sep c a b : no_char c (a ++ String c b)%string = false.
Proof.
  rewrite no_char_app. cbn [no_char]. rewrite Ascii.eqb_refl.
  cbn [negb andb]. apply andb_false_r.
Qed.

(** Two texts without [c], each followed by [c], split a string at the
    same place: at the first [c]. *)
Lemma split_at_first c a b r r' :
  no_char c a = true -> no_char c b = true ->
  (a ++ String c r)%string = (b ++ String c r')%string ->
  a = b /\ r = r'.
Proof.
  revert b. induction a as [|x a IH]; intros [|y b] Ha Hb Heq;
    cbn [String.append no_char] in *.
  - inversion Heq. now split.
  - inversion Heq; subst. rewrite Ascii.eqb_refl in Hb. discriminate.
  - inversion Heq; subst. rewrite Ascii.eqb_refl in Ha. discriminate.
  - inversion Heq; subst.
    apply andb_true_iff in Ha as [_ Ha]. apply andb_true_iff in Hb as [_ Hb].
    destruct (IH b Ha Hb H1). subst. now split.
Qed.

(** Two texts without [c], each preceded by [c], split a string at the
    same place: at the last [c]. *)
Lemma split_at_last c a b r r' :
  no_char c r = true -> no_char c r' = true ->
  (a ++ String c r)%string = (b ++ String c r')%string ->
  a = b /\ r = r'.
Proof.
  intros Hr Hr'. revert b. induction a as [|x a IH]; intros [|y b] Heq;
    cbn [String.append] in *.
  - inversion Heq. now split.
  - inversion Heq; subst. rewrite no_char_sep in Hr. discriminate.
  - inversion Heq; subst. rewrite no_char_sep in Hr'. discriminate.
  - inversion Heq; subst. destruct (IH b H1). subst. now split.
Qed.

Lemma plain_token_spec token :
  plain_token token = true <->
  no_char "," token = true /\ no_char "|" token = true.
Proof. unfold plain_token. apply andb_true_iff. Qed.

Lemma join_cons2 sep x y rest :
  join sep (x :: y :: rest) = (x ++ sep ++ join sep (y :: rest))%string.
Proof. reflexivity. Qed.

Lemma join_no_pipe cands :
  forallb plain_token cands = true -> no_char "|" (join "," cands) = true.
Proof.
  induction cands as [|x [|y rest] IH]; intros H.
  - reflexivity.
  - cbn [forallb] in H. apply andb_true_iff in H as [H _].
    now apply plain_token_spec in H.
  - rewrite join_cons2. apply andb_true_iff in H as [Hx H].
    apply plain_token_spec in Hx as [_ Hx].
    rewrite !no_char_app, Hx, (IH H). reflexivity.
Qed.

Lemma join_comma_inj cands cands' :
  cands <> [] -> cands' <> [] ->
  forallb plain_token cands = true ->
  forallb plain_token cands' = true ->
  join "," cands = join "," cands' ->
  cands = cands'.
Proof.
  revert cands'.
  induction cands as [|x [|x2 rest] IH]; intros cands' Hne Hne' Hp Hp' Heq;
    [contradiction| |];
    destruct cands' as [|y [|y2 rest']]; try contradiction;
    apply andb_true_iff in Hp as [Hx Hp];
    apply andb_true_iff in Hp' as [Hy Hp'];
    apply plain_token_spec in Hx as [Hx _];
    apply plain_token_spec in Hy as [Hy _].
  - cbn in Heq. now subst.
  - rewrite join_cons2 in Heq. cbn [join String.concat] in Heq.
    rewrite Heq in Hx. cbn [String.append] in Hx.
    rewrite no_char_sep in Hx. discriminate.
  - rewrite join_cons2 in Heq. cbn [join String.concat] in Heq.
    rewrite <- Heq in Hy. cbn [String.append] in Hy.
    rewrite no_char_sep in Hy. discriminate.
  - rewrite !join_cons2 in Heq. cbn [String.append] in Heq.
    destruct (split_at_first _ _ _ _ _ Hx Hy Heq) as [-> Hrest].
    f_equal. apply IH; auto; discriminate.
Qed.

Lemma tagged_header_inj f h f' h' :
  (f <> f' ->
   (f = MediaType -> untagged h = true) /\
   (f' = MediaType -> untagged h' = true)) ->
  (family_tag f ++ h)%string = (family_tag f' ++ h')%string ->
  f = f' /\ h = h'.
Proof.
  intros Hu Heq.
  destruct f, f'; cbn [family_tag String.append] in Heq;
    try (inversion Heq; now split);
    try discriminate;
    (destruct Hu as [Hu Hu']; [discriminate|]).
  - specialize (Hu eq_refl). subst h. unfold untagged in Hu.
    destruct h'; simpl in Hu; discriminate.
  - specialize (Hu eq_refl). subst h. unfold untagged in Hu.
    destruct h'; simpl in Hu; discriminate.
  - specialize (Hu eq_refl). subst h. unfold untagged in Hu.
    destruct h'; simpl in Hu; discriminate.
  - specialize (Hu' eq_refl). subst h'. unfold untagged in Hu'.
    destruct h; simpl in Hu'; discriminate.
  - specialize (Hu' eq_refl). subst h'. unfold untagged in Hu'.
    destruct h; simpl in Hu'; discriminate.
  - specialize (Hu' eq_refl). subst h'. unfold untagged in Hu'.
    destruct h; simpl in Hu'; discriminate.
Qed.

Lemma cache_key_eq_inv f h cands f' h' cands' :
  cands <> [] -> cands' <> [] ->
  forallb plain_token cands = true ->
  forallb plain_token cands' = true ->
  (f <> f' ->
   (f = MediaType -> untagged h = true) /\
   (f' = MediaType -> untagged h' = true)) ->
  cache_key f h cands = cache_key f' h' cands' ->
  f = f' /\ h = h' /\ cands = cands'.
Proof.
  intros Hne Hne' Hp Hp' Hu. unfold cache_key. intros Heq.
  change ("|" ++ join "," cands)%string
    with (String "|" (join "," cands)) in Heq.
  change ("|" ++ join "," cands')%string
    with (String "|" (join "," cands')) in Heq.
  rewrite (string_app_assoc (family_tag f) h),
    (string_app_assoc (family_tag f') h') in Heq.
  apply split_at_last in Heq as [Hh Hj]; try now apply join_no_pipe.
  destruct (tagged_header_inj _ _ _ _ Hu Hh) as [-> ->].
  repeat split. now apply join_comma_inj.
Qed.

(** C2 (amended): for candidate sequences that are not empty and whose
    tokens hold neither [","] nor ["|"], and any header values, two keys
    of one family, or of two of the tagged families (encodings, charsets,
    languages), or of [types] and a tagged family when the [Accept] value
    does not itself start with a family tag, are equal exactly when
    family, header value and ordered candidates are equal. *)
Theorem cache_key_injective_on_plain f h cands f' h' cands' :
  cands <> [] -> cands' <> [] ->
  forallb plain_token cands = true ->
  forallb plain_token cands' = true ->
  (f <> f' ->
   (f = MediaType -> untagged h = true) /\
   (f' = MediaType -> untagged h' = true)) ->
  (cache_key f h cands = cache_key f' h' cands'
   <-> f = f' /\ h = h' /\ cands = cands').
Proof.
  intros Hne Hne' Hp Hp' Hu. split.
  - now apply cache_key_eq_inv.
  - now intros (-> & -> & ->).
Qed.

(* --------------------------------------------------------------------- *)
(** *** Transparency of the result cache *)
(* --------------------------------------------------------------------- *)

Lemma flattened_tokens args cands :
  flattened args = Some cands -> cands = tokens_of args.
Proof.
  unfold flattened. destruct args as [arr|[|first rest]];
    cbn [first_param truthy isArray negb andb tokens_of].
  - intros H. now inversion H.
  - discriminate.
  - destruct (first =? ""); cbn [negb andb]; [discriminate|].
    intros H. now inversion H.
Qed.

Lemma header_truthy_inv (o : option string) :
  truthy (header_value o) = true ->
  exists h, o = Some h /\ h <> "" /\ text (header_value o) = h.
Proof.
  destruct o as [h|]; cbn [header_value truthy text]; [|discriminate].
  destruct (String.eqb_spec h "") as [->|Hne]; [discriminate|].
  intros _. now exists h.
Qed.

Lemma cache_path_inv c k :
  cache_path c = Some k ->
  exists h cands,
    flattened (call_args c) = Some cands /\ cands <> [] /\
    header_of (call_family c) (req_headers (call_req c)) = Some h /\
    h <> "" /\
    k = cache_key (call_family c) h cands.
Proof.
  unfold cache_path.
  destruct (flattened (call_args c)) as [[|c0 cs]|]; try discriminate.
  destruct (truthy (header_value
              (header_of (call_family c) (req_headers (call_req c)))))
    eqn:Ht; [|discriminate].
  destruct (header_truthy_inv _ Ht) as (h & Hh & Hne & Htx).
  rewrite Htx. intros Hk. exists h, (c0 :: cs).
  repeat split; auto; try discriminate.
  destruct (call_family c);
    [destruct (length (c0 :: cs) =? 1)%nat; [discriminate|]|..];
    now inversion Hk.
Qed.

Lemma uncached_determined c c' :
  call_family c = call_family c' ->
  header_of (call_family c) (req_headers (call_req c))
  = header_of (call_family c') (req_headers (call_req c')) ->
  flattened (call_args c) = flattened (call_args c') ->
  uncached c = uncached c'.
Proof.
  intros Hf Hh Hfl. unfold uncached. cbv zeta. now rewrite Hh, Hf, Hfl.
Qed.

Lemma plain_same_key c c' k :
  plain_call c -> plain_call c' ->
  cache_path c = Some k -> cache_path c' = Some k ->
  uncached c = uncached c'.
Proof.
  intros [Hp Hu] [Hp' Hu'] Hk Hk'.
  apply cache_path_inv in Hk as (h & cands & Hfl & Hne & Hh & Hhne & ->).
  apply cache_path_inv in Hk' as (h' & cands' & Hfl' & Hne' & Hh' & Hhne' & Heq).
  rewrite <- (flattened_tokens _ _ Hfl) in Hp.
  rewrite <- (flattened_tokens _ _ Hfl') in Hp'.
  apply cache_key_eq_inv in Heq as (Hf & -> & ->); auto.
  - apply uncached_determined; congruence.
  - intros _. split; intros Hm.
    + specialize (Hu Hm). rewrite Hm in Hh. cbn [header_of] in Hh.
      now rewrite Hh in Hu.
    + specialize (Hu' Hm). rewrite Hm in Hh'. cbn [header_of] in Hh'.
      now rewrite Hh' in Hu'.
Qed.

Lemma coherent_initial : coherent initial.
Proof. split; [apply mime_ok_initial|]. intros k v []. Qed.

Lemma coherent_step s c :
  plain_call c -> coherent s -> coherent (final (run_call c s)).
Proof.
  intros Hplain [Hok Hs]. outcome_cases c s.
  - split; [now apply Hmime|]. now rewrite Hcache.
  - now split.
  - destruct (Hmime Hok) as [-> Hok']. split; [exact Hok'|].
    rewrite Hcache. intros k' v' Hin c' Hplain' Hk'.
    unfold insert_bounded in Hin.
    apply in_set in Hin as [[-> ->]|Hin].
    + eapply plain_same_key; eauto.
    + apply (Hs k' v'); auto.
      destruct (CACHE_SIZE_LIMIT <=? _)%nat; auto.
      eapply in_skipn; eauto.
Qed.

Lemma coherent_result s c :
  plain_call c -> coherent s -> result (run_call c s) = uncached c.
Proof.
  intros Hplain [Hok Hs]. outcome_cases c s.
  - now apply Hmime.
  - apply (Hs k); auto. apply get_in. intros Hu.
    rewrite Hu in Hdef. discriminate.
  - now apply Hmime.
Qed.

Lemma coherent_reachable cs :
  Forall plain_call cs -> coherent (run_calls cs initial).
Proof.
  intros Hcs. apply (run_calls_invariant coherent plain_call); auto.
  - intros s c. apply coherent_step.
  - apply coherent_initial.
Qed.

(** C1 (amended): as long as the calls made so far and the call at hand
    are plain (their candidate tokens hold neither [","] nor ["|"], and
    for [types] the [Accept] value does not start with a family tag),
    the result of a call, served from the result cache or not, is the
    result computed fresh from its header and candidates; two such calls
    with the same operation, the same arguments and requests with the
    same headers therefore return the same result, whatever was called
    before each. *)
Theorem cache_transparent_on_plain_calls :
  (forall cs c,
      Forall plain_call cs -> plain_call c ->
      result (run_call c (run_calls cs initial)) = uncached c) /\
  (forall cs cs' f req req' args,
      Forall plain_call cs -> Forall plain_call cs' ->
      plain_call (mkCall f req args) ->
      req_headers req = req_headers req' ->
      result (run_call (mkCall f req args) (run_calls cs initial))
      = result (run_call (mkCall f req' args) (run_calls cs' initial))).
Proof.
  assert (H : forall cs c,
             Forall plain_call cs -> plain_call c ->
             result (run_call c (run_calls cs initial)) = uncached c).
  { intros cs c Hcs Hc. apply coherent_result; auto.
    now apply coherent_reachable. }
  split; [exact H|].
  intros cs cs' f req req' args Hcs Hcs' Hc Hreq.
  destruct req as [hs], req' as [hs']. cbn [req_headers] in Hreq. subst hs'.
  now rewrite !H.
Qed.

(* --------------------------------------------------------------------- *)
(** *** The operations in closed form *)
(* --------------------------------------------------------------------- *)

Ltac sibling_closed f op fld :=
  let T := fresh "T" in
  let D := fresh "D" in
  unfold run_call; cbn [call_family call_req call_args];
  unfold op;
  destruct (flattened _) as [[|? ?]|]; [reflexivity| |reflexivity];
  cbn [headers Accepts header_of];
  destruct (truthy (header_value (fld _))) eqn:T; cbn [negb andb];
  [ unfold bind at 1; unfold negotiationCache_get at 1;
    change (_ ++ ?h ++ "|" ++ join "," ?l)%string with (cache_key f h l);
    match goal with
    | |- context [defined ?v] => destruct (defined v) eqn:D
    end;
    [ reflexivity
    | unfold bind at 1; unfold negotiator_call at 1; unfold bind at 1;
      rewrite (store_shared f) by discriminate;
      cbn [ret app Accepts negotiator header_of req_headers];
      now rewrite app_nil_r ]
  | reflexivity ].

Lemma sibling_closed_form f req args s :
  f <> MediaType ->
  let h := header_of f (req_headers req) in
  run_call (mkCall f req args) s =
  match flattened args with
  | None | Some [] => (VArray (preferred f h None), s, [EvNegotiator f h None])
  | Some cands =>
      let fresh := or_false (at0 (preferred f h (Some cands))) in
      if truthy (header_value h) then
        let k := cache_key f (text (header_value h)) cands in
        if defined (JsMap.get (negotiationCache s) k) then
          (JsMap.get (negotiationCache s) k, s, [EvCacheGet k])
        else
          (fresh,
           mkStore (insert_bounded (negotiationCache s) k fresh) (mimeCache s),
           EvCacheGet k :: EvNegotiator f h (Some cands) :: EvCacheSize ::
           eviction_events f (negotiationCache s) ++ [EvCacheSet k fresh])
      else (fresh, s, [EvNegotiator f h (Some cands)])
  end.
Proof.
  intros Hf h. subst h. destruct f; [contradiction| | |].
  - sibling_closed Encoding encodings accept_encoding.
  - sibling_closed Charset charsets accept_charset.
  - sibling_closed Language languages accept_language.
Qed.
Lemma types_closed_form req args s :
  let h := accept (req_headers req) in
  types (Accepts req) args s =
  match flattened args with
  | None | Some [] =>
      (VArray (preferredMediaTypes h None), s, [EvNegotiator MediaType h None])
  | Some ((t0 :: rest) as cands) =>
      if negb (truthy (header_value h)) then (VString t0, s, [])
      else
        match rest with
        | [] =>
            let '(v, s1, e1) := extToMimeCached t0 s in
            if validMime v then
              (if truthy (at0 (preferredMediaTypes h (Some [text v])))
               then VString t0 else VBool false,
               s1, e1 ++ [EvNegotiator MediaType h (Some [text v])])
            else (VBool false, s1, e1)
        | _ :: _ =>
            let k := cache_key MediaType (text (header_value h)) cands in
            if defined (JsMap.get (negotiationCache s) k) then
              (JsMap.get (negotiationCache s) k, s, [EvCacheGet k])
            else
              let '(mm, ms, s1, e1) := mime_loop cands JsMap.empty [] s in
              let top := at0 (preferredMediaTypes h (Some ms)) in
              let r := if truthy top then JsMap.get mm (text top)
                       else VBool false in
              (r,
               mkStore (insert_bounded (negotiationCache s) k r) (mimeCache s1),
               EvCacheGet k :: e1 ++ EvNegotiator MediaType h (Some ms) ::
               EvCacheSize :: eviction_events MediaType (negotiationCache s) ++
               [EvCacheSet k r])
        end
  end.
Proof.
  intros h. subst h. unfold types.
  destruct (flattened args) as [[|t0 rest]|]; [reflexivity| |reflexivity].
  cbn [headers Accepts].
  destruct (truthy (header_value (accept (req_headers req)))); cbn [negb];
    [|reflexivity].
  destruct rest as [|t1 rest]; cbn [length Nat.eqb].
  - unfold bind at 1.
    destruct (extToMimeCached t0 s) as [[v s1] e1].
    destruct (validMime v); cbn [negb].
    + reflexivity.
    + unfold ret. now rewrite app_nil_r.
  - set (cands := t0 :: t1 :: rest).
    change (text (header_value (accept (req_headers req))) ++ "|" ++
            join "," cands)%string
      with (cache_key MediaType
              (text (header_value (accept (req_headers req)))) cands).
    unfold bind at 1. unfold negotiationCache_get at 1.
    destruct (defined (JsMap.get (negotiationCache s) _)); [reflexivity|].
    unfold bind at 1.
    destruct (mime_loop_frame cands JsMap.empty [] s) as [Hc _].
    destruct (mime_loop cands JsMap.empty [] s) as [[[mm ms] s1] e1].
    unfold final in Hc. cbn [fst snd] in Hc.
    unfold bind at 1. unfold negotiator_call at 1.
    rewrite store_types, Hc.
    cbn [app Accepts negotiator header_of req_headers preferred].
    reflexivity.
Qed.

(* --------------------------------------------------------------------- *)
(** *** The resolver cache *)
(* --------------------------------------------------------------------- *)

Lemma in_keys_set (m : JsMap.t) k v k' :
  In k' (JsMap.keys (JsMap.set m k v)) -> k' = k \/ In k' (JsMap.keys m).
Proof.
  induction m as [|[k0 v0] m IH]; cbn [JsMap.set JsMap.keys map fst In].
  - intros [<-|[]]. now left.
  - destruct (k0 =? k); cbn [map fst In]; [tauto|].
    intros [<-|H]; [tauto|]. destruct (IH H); tauto.
Qed.

Lemma nodup_keys_set (m : JsMap.t) k v :
  NoDup (JsMap.keys m) -> NoDup (JsMap.keys (JsMap.set m k v)).
Proof.
  induction m as [|[k0 v0] m IH]; cbn [JsMap.set JsMap.keys map fst].
  - intros _. repeat constructor. intros [].
  - intros Hnd. inversion Hnd as [|? ? Hnot Hrest]; subst.
    destruct (String.eqb_spec k0 k) as [->|Hne]; cbn [map fst].
    + now constructor.
    + constructor; [|now apply IH].
      intros Hin. apply in_keys_set in Hin as [->|Hin]; contradiction.
Qed.

Lemma nodup_skipn {A} n (l : list A) : NoDup l -> NoDup (skipn n l).
Proof.
  revert l. induction n as [|n IH]; intros [|x l] H; cbn [skipn]; auto.
  inversion H; subst. now apply IH.
Qed.

Lemma keys_skipn n (m : JsMap.t) :
  JsMap.keys (skipn n m) = skipn n (JsMap.keys m).
Proof.
  revert m. induction n as [|n IH]; intros [|x m]; cbn [skipn JsMap.keys map];
    auto.
Qed.

Lemma resolver_ok_step type s :
  resolver_ok (mimeCache s) ->
  resolver_ok (mimeCache (final (extToMimeCached type s))).
Proof.
  intros [Hnd Hok]. unfold extToMimeCached.
  destruct (indexOf type "/" =? -1)%Z eqn:Hslash; cbn [negb];
    [|now split].
  unfold bind, mimeCache_get. cbn [fst snd].
  destruct (defined (JsMap.get (mimeCache s) type)); [now split|].
  unfold final. cbn [fst snd mimeCache]. split.
  - now apply nodup_keys_set.
  - intros token v Hin. apply in_set in Hin as [[-> ->]|Hin].
    + split; [now apply Z.eqb_eq|reflexivity].
    + now apply Hok.
Qed.

Lemma mime_loop_invariant (P : JsMap.t -> Prop) :
  (forall type s, P (mimeCache s) ->
                  P (mimeCache (final (extToMimeCached type s)))) ->
  forall types mimeMap mimes s,
    P (mimeCache s) ->
    P (mimeCache (final (mime_loop types mimeMap mimes s))).
Proof.
  intros Hstep types. induction types as [|type rest IH];
    intros mimeMap mimes s Hs; [exact Hs|].
  cbn [mime_loop]. unfold bind.
  specialize (Hstep type s Hs).
  destruct (extToMimeCached type s) as [[v s1] e1].
  unfold final in Hstep. cbn [fst snd] in Hstep.
  destruct (validMime v).
  - specialize (IH (JsMap.set mimeMap (text v) (VString type))
                  (mimes ++ [text v]) s1 Hstep).
    destruct (mime_loop rest _ _ s1) as [[r s2] e2]. exact IH.
  - specialize (IH mimeMap mimes s1 Hstep).
    destruct (mime_loop rest _ _ s1) as [[r s2] e2]. exact IH.
Qed.

Lemma sibling_keeps_mimeCache f req args s :
  f <> MediaType ->
  mimeCache (final (run_call (mkCall f req args) s)) = mimeCache s.
Proof.
  intros Hf. rewrite sibling_closed_form by exact Hf.
  destruct (flattened args) as [[|c0 cs]|]; try reflexivity.
  cbv zeta.
  destruct (truthy _); [|reflexivity].
  destruct (defined _); reflexivity.
Qed.

Lemma mimeCache_invariant (P : JsMap.t -> Prop) :
  (forall type s, P (mimeCache s) ->
                  P (mimeCache (final (extToMimeCached type s)))) ->
  forall c s, P (mimeCache s) -> P (mimeCache (final (run_call c s))).
Proof.
  intros Hstep [f req args] s Hs.
  destruct f;
    try (rewrite sibling_keeps_mimeCache by discriminate; exact Hs).
  change (run_call (mkCall MediaType req args) s)
    with (types (Accepts req) args s).
  rewrite types_closed_form.
  destruct (flattened args) as [[|t0 rest]|]; try exact Hs.
  cbv zeta.
  destruct (negb _); [exact Hs|].
  destruct rest as [|t1 rest].
  - specialize (Hstep t0 s Hs).
    destruct (extToMimeCached t0 s) as [[v s1] e1].
    destruct (validMime v); exact Hstep.
  - destruct (defined _); [exact Hs|].
    pose proof (mime_loop_invariant P Hstep (t0 :: t1 :: rest)
                  JsMap.empty [] s Hs) as Hl.
    destruct (mime_loop _ _ _ s) as [[[mm ms] s1] e1]. exact Hl.
Qed.

(** X1: in every store the module can reach, the memoised resolver
    [extToMimeCached] returns what [extToMime] returns; it leaves the
    result cache alone, and its only events are calls of [mime.lookup]. *)
Theorem resolver_transparent cs type :
  let r := extToMimeCached type (run_calls cs initial) in
  result r = extToMime type /\
  negotiationCache (final r) = negotiationCache (run_calls cs initial) /\
  lookups_only (events r).
Proof.
  intros r. subst r. split.
  - apply extToMimeCached_ok. apply mime_ok_reachable.
  - apply extToMimeCached_frame.
Qed.

(** X2: the resolver memoises every answer, failures included: right
    after [extToMimeCached] has resolved a token, resolving the same token
    again returns the same value, leaves the store as it is and does not
    call [mime.lookup]. *)
Theorem resolver_memoised type s :
  let first := extToMimeCached type s in
  extToMimeCached type (final first) = (result first, final first, []).
Proof.
  cbv zeta. unfold extToMimeCached.
  destruct (indexOf type "/" =? -1)%Z; cbn [negb]; [|reflexivity].
  unfold bind, mimeCache_get, mime_lookup_call, mimeCache_set, ret, final,
    result.
  destruct (defined (JsMap.get (mimeCache s) type)) eqn:D;
    cbn [fst snd app mimeCache negotiationCache].
  - rewrite D. reflexivity.
  - rewrite get_set_same. destruct (mime_lookup type); reflexivity.
Qed.

(** X3: in every store the module can reach, the resolver cache holds at
    most one entry per token, only for tokens without ["/"], and each
    entry is the answer of [mime.lookup] for its token: a media type or
    [false], never [undefined]. *)
Theorem resolver_cache_invariant cs :
  let mc := mimeCache (run_calls cs initial) in
  NoDup (JsMap.keys mc) /\
  forall token v,
    In (token, v) mc ->
    indexOf token "/" = (-1)%Z /\ v = lookup_value token /\ v <> VUndefined.
Proof.
  cbv zeta.
  assert (H : resolver_ok (mimeCache (run_calls cs initial))).
  { apply (run_calls_invariant (fun s => resolver_ok (mimeCache s))
             (fun _ => True)).
    - intros s c _. apply mimeCache_invariant. apply resolver_ok_step.
    - apply Forall_True.
    - split; [constructor|intros t v []]. }
  destruct H as [Hnd Hok]. split; [exact Hnd|].
  intros token v Hin. destruct (Hok token v Hin) as [Hs ->].
  repeat split; auto.
  unfold lookup_value. destruct (mime_lookup token); discriminate.
Qed.

(* --------------------------------------------------------------------- *)
(** *** Calls without candidates, calls without a header *)
(* --------------------------------------------------------------------- *)

(** X4: called with no argument, with an empty array, or with an empty
    string as first argument, each of the four operations returns the
    engine's full list for its header, as an array; the store is left as
    it is and the one call of the engine is the only event. *)
Theorem no_candidates_full_list f req args s :
  args = Single [] \/ args = Spread [] \/
  (exists rest, args = Spread ("" :: rest)) ->
  let h := header_of f (req_headers req) in
  run_call (mkCall f req args) s
  = (VArray (preferred f h None), s, [EvNegotiator f h None]).
Proof.
  intros Hargs h. subst h.
  assert (Hfl : flattened args = None \/ flattened args = Some []).
  { destruct Hargs as [->|[->|[rest ->]]]; [now right|now left|now left]. }
  destruct f.
  - change (run_call (mkCall MediaType req args) s)
      with (types (Accepts req) args s).
    rewrite types_closed_form. destruct Hfl as [->| ->]; reflexivity.
  - rewrite sibling_closed_form by discriminate.
    destruct Hfl as [->| ->]; reflexivity.
  - rewrite sibling_closed_form by discriminate.
    destruct Hfl as [->| ->]; reflexivity.
  - rewrite sibling_closed_form by discriminate.
    destruct Hfl as [->| ->]; reflexivity.
Qed.

(** X5: when the header of [encodings], [charsets] or [languages] is
    absent or empty, a call that passes candidates (at least one, in an
    array or spread over the arguments with a first token that is not
    the empty string) asks the engine each time and returns its first
    answer, or [false] when there is none (or when it is the empty
    string); the result cache is neither read nor written and the store
    is left as it is. *)
Theorem tagged_family_without_header f req args cands s :
  f <> MediaType ->
  header_of f (req_headers req) = None \/
  header_of f (req_headers req) = Some "" ->
  supplies args cands ->
  cands <> [] ->
  let h := header_of f (req_headers req) in
  run_call (mkCall f req args) s
  = (or_false (at0 (preferred f h (Some cands))), s,
     [EvNegotiator f h (Some cands)]).
Proof.
  intros Hf Hh Hargs Hne h. subst h.
  pose proof (supplies_flattened _ _ Hargs Hne) as Hfl.
  rewrite sibling_closed_form by exact Hf. rewrite Hfl.
  destruct cands as [|c0 cs]; [contradiction|]. cbv zeta.
  destruct Hh as [-> | ->]; reflexivity.
Qed.


(* --------------------------------------------------------------------- *)
(** *** The result cache as a first-in, first-out store *)
(* --------------------------------------------------------------------- *)

Lemma set_absent (m : JsMap.t) k v :
  ~ In k (JsMap.keys m) -> JsMap.set m k v = m ++ [(k, v)].
Proof.
  induction m as [|[k0 v0] m IH]; cbn [JsMap.set JsMap.keys map fst In app];
    [reflexivity|].
  intros Hn. destruct (String.eqb_spec k0 k) as [->|_]; [tauto|].
  f_equal. apply IH. tauto.
Qed.

Lemma nodup_keys_insert_bounded (m : JsMap.t) k v :
  NoDup (JsMap.keys m) -> NoDup (JsMap.keys (insert_bounded m k v)).
Proof.
  intros Hnd. unfold insert_bounded. apply nodup_keys_set.
  destruct (CACHE_SIZE_LIMIT <=? JsMap.size m)%nat; [|exact Hnd].
  rewrite keys_skipn. now apply nodup_skipn.
Qed.

Lemma length_deleted_inline n (m : JsMap.t) :
  length (deleted_inline n m) = n.
Proof.
  revert m. induction n as [|n IH]; intros [|[k v] m];
    cbn [deleted_inline length]; auto.
Qed.

(** X6: a result that was stored is found again.  When a call takes the
    cache path and returns a value other than [undefined], the same call
    made right after it returns the same value from the cache: the store
    is left as it is and the lookup of the key is the only event, so
    neither the engine nor the resolver runs again. *)
Theorem repeated_call_is_hit c s k :
  cache_path c = Some k ->
  defined (result (run_call c s)) = true ->
  run_call c (final (run_call c s))
  = (result (run_call c s), final (run_call c s), [EvCacheGet k]).
Proof.
  intros Hk Hdef'. outcome_cases c s.
  - congruence.
  - rewrite Hk in Hpath. inversion Hpath; subst.
    now apply hit_served.
  - rewrite Hk in Hpath. inversion Hpath; subst.
    assert (Hget : JsMap.get (negotiationCache s0) k0 = v).
    { rewrite Hcache. unfold insert_bounded. apply get_set_same. }
    rewrite (hit_served c s0 k0 Hk); rewrite Hget; auto.
Qed.

(** In every store the module can reach, the keys of the result cache
    are pairwise distinct, as in the [Map] it models. *)
Lemma cache_keys_distinct cs :
  NoDup (JsMap.keys (negotiationCache (run_calls cs initial))).
Proof.
  apply (run_calls_invariant
           (fun s => NoDup (JsMap.keys (negotiationCache s)))
           (fun _ => True)).
  - intros s c _ Hs. outcome_cases c s; auto.
    + now rewrite Hcache.
    + rewrite Hcache. now apply nodup_keys_insert_bounded.
  - apply Forall_True.
  - constructor.
Qed.

(** X7: the result cache is first-in, first-out.  Under the engine's
    contract and in every store the module can reach, a call that stores
    a result appends it as the newest entry, behind the entries that were
    there (less the 100 oldest when the cache was at the limit), whose
    order is kept. *)
Theorem stored_result_is_newest
    (engine_subset :
       forall f h offered x,
         In x (preferred f h (Some offered)) -> In x offered)
    cs c k v :
  let s := run_calls cs initial in
  In (EvCacheSet k v) (events (run_call c s)) ->
  negotiationCache (final (run_call c s))
  = (if (CACHE_SIZE_LIMIT <=? JsMap.size (negotiationCache s))%nat
     then skipn 100 (negotiationCache s)
     else negotiationCache s) ++ [(k, v)].
Proof.
  intros s Hin.
  apply set_event_inv in Hin as (_ & Hmiss & _ & Hcache & _).
  assert (Habs : ~ In k (JsMap.keys (negotiationCache s))).
  { apply miss_absent; auto. now apply outcomes_reachable. }
  rewrite Hcache. unfold insert_bounded. apply set_absent.
  destruct (CACHE_SIZE_LIMIT <=? _)%nat; [|exact Habs].
  rewrite keys_skipn. intros Hk. apply Habs. eapply in_skipn; eauto.
Qed.

(** X8: the two eviction loops have the same effect on the store.  On
    any store, [clearCacheEntries] and the loop written out in [types]
    both drop the 100 oldest entries of the result cache (all of them
    when there are fewer), keep the others in order and leave the
    resolver cache alone; [clearCacheEntries] stops when the iterator is
    exhausted, the loop of [types] always calls [delete] 100 times. *)
Theorem eviction_loops_agree s :
  final (clearCacheEntries s) = final (delete_loop 100 JsMap.start s) /\
  negotiationCache (final (clearCacheEntries s))
  = skipn 100 (negotiationCache s) /\
  mimeCache (final (clearCacheEntries s)) = mimeCache s /\
  JsMap.size (negotiationCache (final (clearCacheEntries s)))
  = JsMap.size (negotiationCache s) - 100 /\
  events (clearCacheEntries s)
  = EvCacheKeys ::
    map (fun key => EvCacheDelete (Some key))
      (firstn 100 (JsMap.keys (negotiationCache s))) /\
  length (events (delete_loop 100 JsMap.start s)) = 100.
Proof.
  rewrite clearCacheEntries_spec, delete_loop_spec.
  unfold final, events. cbn [fst snd negotiationCache mimeCache].
  repeat split.
  - unfold JsMap.size. apply length_skipn.
  - now rewrite length_map, length_deleted_inline.
Qed.

(** X10: keys of two different families among encodings, charsets and
    languages are never equal, whatever the header values and the
    candidates: a result stored by one of these operations is not served
    to another. *)
Theorem tagged_families_keep_apart c c' k k' :
  call_family c <> MediaType ->
  call_family c' <> MediaType ->
  call_family c <> call_family c' ->
  cache_path c = Some k ->
  cache_path c' = Some k' ->
  k <> k'.
Proof.
  intros Hf Hf' Hne Hk Hk'.
  apply cache_path_inv in Hk as (h & cands & _ & _ & _ & _ & ->).
  apply cache_path_inv in Hk' as (h' & cands' & _ & _ & _ & _ & ->).
  unfold cache_key.
  destruct (call_family c), (call_family c'); try contradiction;
    cbn [family_tag String.append]; discriminate.
Qed.

(* --------------------------------------------------------------------- *)
(** *** What a call with candidates returns *)
(* --------------------------------------------------------------------- *)

Lemma mimes_of_filter types :
  mimes_of types = map text (filter validMime (map extToMime types)).
Proof.
  induction types as [|type rest IH]; [reflexivity|].
  rewrite mimes_of_cons. cbn [map filter].
  destruct (validMime (extToMime type)); cbn [app map]; now rewrite IH.
Qed.

Lemma mimes_of_invalid types :
  (forall t, In t types -> validMime (extToMime t) = false) ->
  mimes_of types = [].
Proof.
  induction types as [|type rest IH]; intros H; [reflexivity|].
  rewrite mimes_of_cons, (H type) by now left.
  apply IH. intros t Ht. apply H. now right.
Qed.

Lemma uncached_in_candidates
    (engine_subset :
       forall f h offered x,
         In x (preferred f h (Some offered)) -> In x offered)
    c :
  candidates c <> [] ->
  uncached c = VBool false \/
  exists token, uncached c = VString token /\ In token (candidates c).
Proof.
  intros Hne.
  destruct (cache_path c) as [k|] eqn:Hk;
    [now apply (uncached_token engine_subset c k)|].
  destruct c as [f req args].
  unfold cache_path, uncached, candidates in *.
  cbn [call_args call_family call_req] in *.
  destruct (flattened args) as [[|c0 cs]|]; try contradiction.
  set (cands := c0 :: cs) in *.
  destruct (truthy (header_value (header_of f (req_headers req)))) eqn:Ht.
  - destruct f; try discriminate. cbn [negb].
    destruct (length cands =? 1)%nat; [|discriminate].
    destruct (validMime (extToMime c0)); cbn [negb]; [|now left].
    destruct (truthy (at0 _)); [right|now left].
    exists c0. split; [reflexivity|now left].
  - destruct f.
    + cbn [negb]. right. exists c0. split; [reflexivity|now left].
    + pose proof (engine_subset Encoding
                    (header_of Encoding (req_headers req)) cands) as Hsub.
      destruct (preferred Encoding _ (Some cands)) as [|x l]; [now left|].
      unfold or_false. cbn [at0 truthy].
      destruct (x =? ""); [now left|right].
      exists x. split; [reflexivity|]. apply Hsub. now left.
    + pose proof (engine_subset Charset
                    (header_of Charset (req_headers req)) cands) as Hsub.
      destruct (preferred Charset _ (Some cands)) as [|x l]; [now left|].
      unfold or_false. cbn [at0 truthy].
      destruct (x =? ""); [now left|right].
      exists x. split; [reflexivity|]. apply Hsub. now left.
    + pose proof (engine_subset Language
                    (header_of Language (req_headers req)) cands) as Hsub.
      destruct (preferred Language _ (Some cands)) as [|x l]; [now left|].
      unfold or_false. cbn [at0 truthy].
      destruct (x =? ""); [now left|right].
      exists x. split; [reflexivity|]. apply Hsub. now left.
Qed.

(** X11: the return contract of a call with candidates.  Under the
    engine's contract, as long as the calls made so far and the call at
    hand use candidate tokens without [","] and ["|"] (and, for [types],
    [Accept] values that do not start with a family tag), a call of any
    of the four operations that passes candidates (at least one, in an
    array or spread over the arguments with a first token that is not
    the empty string) returns [false] or one of the tokens passed, as
    the caller wrote it: never a canonical identifier the caller did not
    pass, never an array, never [undefined]. *)
Theorem result_is_own_token_or_false
    (engine_subset :
       forall f h offered x,
         In x (preferred f h (Some offered)) -> In x offered)
    cs c cands :
  Forall plain_call cs ->
  plain_call c ->
  supplies (call_args c) cands ->
  cands <> [] ->
  result (run_call c (run_calls cs initial)) = VBool false \/
  exists token,
    result (run_call c (run_calls cs initial)) = VString token /\
    In token cands.
Proof.
  intros Hcs Hc Hargs Hne.
  assert (Hcands : candidates c = cands).
  { unfold candidates. now rewrite (supplies_flattened _ _ Hargs Hne). }
  rewrite (coherent_result _ c Hc (coherent_reachable cs Hcs)).
  rewrite <- Hcands. apply uncached_in_candidates; [exact engine_subset|].
  now rewrite Hcands.
Qed.

(** X12: unknown candidates are dropped, and a call of [types] all of
    whose candidates are unknown is not acceptable.  Under the engine's
    contract and for plain calls as in X11, with an [Accept] header that
    is not empty, when the caller passes candidates (at least one, in an
    array or spread over the arguments with a first token that is not
    the empty string) none of which resolves to a media type
    ([mime.lookup] answers [false] for each and none holds ["/"]), then
    [types] returns [false]. *)
Theorem unresolvable_types_rejected
    (engine_subset :
       forall f h offered x,
         In x (preferred f h (Some offered)) -> In x offered)
    cs req args cands :
  let c := mkCall MediaType req args in
  Forall plain_call cs ->
  plain_call c ->
  supplies args cands ->
  cands <> [] ->
  truthy (header_value (accept (req_headers req))) = true ->
  (forall t, In t cands -> validMime (extToMime t) = false) ->
  result (run_call c (run_calls cs initial)) = VBool false.
Proof.
  intros c Hcs Hc Hargs Hne Ht Hinv.
  pose proof (supplies_flattened _ _ Hargs Hne) as Hfl.
  rewrite (coherent_result _ c Hc (coherent_reachable cs Hcs)).
  unfold uncached, c. cbn [call_args call_family call_req header_of].
  rewrite Hfl. destruct cands as [|c0 rest]; [contradiction|].
  rewrite Ht. cbn [negb].
  destruct (length (c0 :: rest) =? 1)%nat.
  - rewrite (Hinv c0) by now left. reflexivity.
  - rewrite (mimes_of_invalid _ Hinv).
    pose proof (engine_subset MediaType (accept (req_headers req)) []) as Hsub.
    cbn [preferred] in *.
    destruct (preferredMediaTypes (accept (req_headers req)) (Some []))
      as [|x l]; [reflexivity|].
    destruct (Hsub x (or_introl eq_refl)).
Qed.

(** X13: what [types] hands to the engine.  In every store the module
    can reach, a call of [types] with two candidates or more and a header
    that is not empty, missing the result cache, calls the engine exactly
    for the canonical identifiers of its valid candidates, in the
    caller's order: the candidates that do not resolve are left out, and
    no other call of the engine is made. *)
Theorem types_hands_valid_mimes cs req args cands h :
  let s := run_calls cs initial in
  let r := types (Accepts req) args s in
  flattened args = Some cands ->
  2 <= length cands ->
  accept (req_headers req) = Some h ->
  h <> "" ->
  JsMap.get (negotiationCache s) (cache_key MediaType h cands) = VUndefined ->
  In (EvNegotiator MediaType (Some h) (Some (mimes_of cands))) (events r) /\
  (forall e, In e (events r) -> engine_event e = true ->
             e = EvNegotiator MediaType (Some h) (Some (mimes_of cands))) /\
  mimes_of cands = map text (filter validMime (map extToMime cands)).
Proof.
  intros s r Hfl Hlen Hh Hne Hmiss. subst r.
  destruct (truthy_header_text _ h Hh Hne) as [Ht Htx].
  rewrite types_closed_form, Hfl. cbv zeta.
  destruct cands as [|t0 [|t1 rest]]; try (simpl in Hlen; lia).
  rewrite Ht, Htx, Hmiss, Hh. cbn [negb defined].
  destruct (mime_loop_frame (t0 :: t1 :: rest) JsMap.empty [] s) as [_ He].
  destruct (mime_loop_ok (t0 :: t1 :: rest) JsMap.empty [] s
              (mime_ok_reachable cs)) as [Hr _].
  destruct (mime_loop _ _ _ s) as [[[mm ms] s1] e1].
  unfold result, events in *. cbn [fst snd] in *.
  inversion Hr; subst mm ms. cbn [app].
  repeat split.
  - right. apply in_or_app. right. now left.
  - intros e [<-|Hin] Heng; [discriminate|].
    apply in_app_or in Hin as [Hin|[<-|[<-|Hin]]];
      [|reflexivity|discriminate|].
    + apply lookups_no_engine in He. unfold no_engine_events in He.
      rewrite Forall_forall in He. rewrite (He e Hin) in Heng. discriminate.
    + apply in_app_or in Hin as [Hin|[<-|[]]]; [|discriminate].
      apply eviction_events_kind in Hin as [->|[->|[k [-> _]]]];
        discriminate.
  - apply mimes_of_filter.
Qed.



End Accepts.

(* ===================================================================== *)
(** ** Concrete calls: witnesses and counterexamples *)
(* ===================================================================== *)

Local Abbreviation client_types :=
  (types (wildcard_client "*/*") (wildcard_client "*") (wildcard_client "*")
     (wildcard_client "*") mime_db).

Local Abbreviation client_call :=
  (run_call (wildcard_client "*/*") (wildcard_client "*")
     (wildcard_client "*") (wildcard_client "*") mime_db).

Local Abbreviation picky_types :=
  (types picky_client picky_client picky_client picky_client mime_db).

(** C4, on [accept.types('html', 'json')] and
    [accept.types(['html', 'json'])] under [Accept: */*]. *)
Lemma spread_as_array_witness :
  hd_error ["html"; "json"] <> Some "" /\
  client_call
    (mkCall MediaType (request_with_accept (Some "*/*"))
       (Spread ["html"; "json"])) initial
  = client_call
      (mkCall MediaType (request_with_accept (Some "*/*"))
         (Single ["html"; "json"])) initial.
Proof.
  split; [discriminate|].
  apply (spread_as_array (wildcard_client "*/*")). discriminate.
Defined.

(** C4 as stated fails when the first token is the empty string:
    [accept.types('', 'text/html')] takes the falsy first argument for "no
    types" and returns the client's full list, while
    [accept.types(['', 'text/html'])] negotiates and returns a token. *)
Lemma spread_differs_on_empty_first :
  let spread :=
    client_call (mkCall MediaType (request_with_accept (Some "*/*"))
                   (Spread [""; "text/html"])) initial in
  let array :=
    client_call (mkCall MediaType (request_with_accept (Some "*/*"))
                   (Single [""; "text/html"])) initial in
  result spread = VArray ["*/*"] /\
  result array = VString "text/html" /\
  result spread <> result array.
Proof. vm_compute. repeat split. discriminate. Qed.

(** C6, on the scenario of the specification: no [Accept] header,
    candidates [['html', 'json']]. *)
Lemma types_without_accept_witness :
  accept (req_headers (request_with_accept None)) = None /\
  client_types (Accepts (request_with_accept None))
    (Single ["html"; "json"]) initial
  = (VString "html", initial, []).
Proof.
  split; [reflexivity|].
  apply (types_without_accept (wildcard_client "*/*") (wildcard_client "*")
           (wildcard_client "*") (wildcard_client "*") mime_db
           (request_with_accept None) (Single ["html"; "json"])
           "html" ["json"] initial).
  - reflexivity.
  - left. reflexivity.
Defined.

(** C6 as stated fails when the first of the spread candidates is the
    empty string: with no [Accept] header, [accept.types('', 'html')]
    does not return its first candidate; the falsy first argument is
    taken for "no types", the engine is called and its full list is
    returned. *)
Lemma types_without_accept_empty_first :
  let req := request_with_accept None in
  let call := client_types (Accepts req) (Spread [""; "html"]) initial in
  accept (req_headers req) = None /\
  call = (VArray ["*/*"], initial, [EvNegotiator MediaType None None]) /\
  result call <> VString "".
Proof. vm_compute. repeat split. discriminate. Qed.

(** C9, on [Accept:] with an empty value. *)
Lemma types_with_empty_accept_witness :
  accept (req_headers (request_with_accept (Some ""))) = Some "" /\
  "json" <> "" /\
  client_types (Accepts (request_with_accept (Some "")))
    (Spread ["json"; "html"]) initial
  = (VString "json", initial, []).
Proof.
  assert (Hne : "json" <> "") by discriminate.
  split; [reflexivity|]. split; [exact Hne|].
  apply (types_with_empty_accept (wildcard_client "*/*")
           (wildcard_client "*") (wildcard_client "*") (wildcard_client "*")
           mime_db (request_with_accept (Some "")) (Spread ["json"; "html"])
           "json" ["html"] initial).
  - reflexivity.
  - right. split; [reflexivity|exact Hne].
Defined.

(** C9 as stated fails when the first of the spread candidates is the
    empty string: under an empty [Accept] value,
    [accept.types('', 'html')] does not take the fast path; the engine is
    called without candidates and its list (empty, for a header that
    names no type) is returned. *)
Lemma types_with_empty_accept_empty_first :
  let req := request_with_accept (Some "") in
  let call :=
    types picky_client picky_client picky_client picky_client mime_db
      (Accepts req) (Spread [""; "html"]) initial in
  accept (req_headers req) = Some "" /\
  call = (VArray [], initial, [EvNegotiator MediaType (Some "") None]) /\
  result call <> VString "".
Proof. vm_compute. repeat split. discriminate. Qed.

(** C7, on the scenario of the specification: the single candidate
    ['png'] against [Accept: text/*, application/json], a header for
    which the engine accepts no image type. *)
Lemma types_single_candidate_witness :
  let h := "text/*, application/json" in
  let call :=
    picky_types (Accepts (request_with_accept (Some h))) (Single ["png"])
      initial in
  h <> "" /\
  call = (VBool false, mkStore [] [("png", VString "image/png")],
          [EvMimeLookup "png";
           EvNegotiator MediaType (Some h) (Some ["image/png"])]) /\
  negotiationCache (final call) = negotiationCache initial.
Proof.
  intros h call.
  assert (Hne : h <> "") by discriminate.
  split; [exact Hne|].
  destruct (types_single_candidate picky_client picky_client picky_client
              picky_client mime_db (request_with_accept (Some h))
              (Single ["png"]) "png" h initial eq_refl Hne
              (or_introl eq_refl))
    as (_ & Hvalid & Hcache & _).
  split; [|exact Hcache].
  apply (Hvalid eq_refl).
Defined.

(** C7 as stated fails for a header that is present and empty: the
    unknown token ['zzz'] does not resolve, and with [Accept:] set to the
    empty string the call returns ['zzz'], not [false].  It also fails
    for the empty string passed as the one argument: under [Accept: */*],
    [accept.types('')] does not resolve its candidate and does not return
    [false] either; the falsy argument is taken for "no types" and the
    engine's full list is returned. *)
Lemma single_candidate_empty_accept :
  (let req := request_with_accept (Some "") in
   let call := client_types (Accepts req) (Single ["zzz"]) initial in
   accept (req_headers req) = Some "" /\
   validMime (result (extToMimeCached mime_db "zzz" initial)) = false /\
   result call = VString "zzz" /\
   result call <> VBool false) /\
  (let req := request_with_accept (Some "*/*") in
   let call := client_types (Accepts req) (Spread [""]) initial in
   validMime (result (extToMimeCached mime_db "" initial)) = false /\
   call = (VArray ["*/*"], initial, [EvNegotiator MediaType (Some "*/*") None])
   /\ result call <> VBool false).
Proof. vm_compute. repeat split; discriminate. Qed.

(** C5, on a cache filled to the limit: the call stores its result after
    the 100 oldest entries are gone, and 901 entries remain. *)
Lemma cache_size_bounded_witness :
  let s := mkStore (filled_cache 1000) [] in
  let c := mkCall MediaType (request_with_accept (Some "*/*"))
             (Single ["a/b"; "c/d"]) in
  CACHE_SIZE_LIMIT <= JsMap.size (negotiationCache s) /\
  In (EvCacheSet "*/*|a/b,c/d" (VString "a/b")) (events (client_call c s)) /\
  negotiationCache (final (client_call c s))
  = JsMap.set (skipn 100 (filled_cache 1000)) "*/*|a/b,c/d" (VString "a/b") /\
  JsMap.size (negotiationCache (final (client_call c s))) = 901.
Proof.
  intros s c.
  assert (Hfull : CACHE_SIZE_LIMIT <= JsMap.size (negotiationCache s)).
  { apply Nat.leb_le. vm_compute. reflexivity. }
  assert (Hin : In (EvCacheSet "*/*|a/b,c/d" (VString "a/b"))
                  (events (client_call c s))).
  { vm_compute. repeat (first [left; reflexivity | right]). }
  split; [exact Hfull|]. split; [exact Hin|].
  destruct (proj2 (cache_size_bounded (wildcard_client "*/*")
                     (wildcard_client "*") (wildcard_client "*")
                     (wildcard_client "*") mime_db)
              s c _ _ Hfull Hin) as (before & _ & _ & Hcache & _).
  split; [exact Hcache|].
  vm_compute. reflexivity.
Defined.



Local Abbreviation picky_call :=
  (run_call picky_client picky_client picky_client picky_client mime_db).

Lemma wildcard_subset f h offered x :
  In x (preferred (wildcard_client "*/*") (wildcard_client "*")
          (wildcard_client "*") (wildcard_client "*") f h (Some offered)) ->
  In x offered.
Proof. destruct f; exact (fun H => H). Defined.

Lemma picky_subset f h offered x :
  In x (preferred picky_client picky_client picky_client picky_client
          f h (Some offered)) ->
  In x offered.
Proof. destruct f; intros []. Defined.

(** C10, on [accept.encodings(['gzip'])] under [Accept-Encoding: br]: the
    first call stores [false]; the same call again is answered by the
    cache. *)
Lemma stored_values_are_outcomes_witness :
  let c := mkCall Encoding (request_with_encoding (Some "br"))
             (Single ["gzip"]) in
  let s1 := final (picky_call c initial) in
  cache_path c = Some "enc:br|gzip" /\
  JsMap.get (negotiationCache s1) "enc:br|gzip" = VBool false /\
  picky_call c s1 = (VBool false, s1, [EvCacheGet "enc:br|gzip"]).
Proof.
  intros c s1.
  assert (Hk : cache_path c = Some "enc:br|gzip") by reflexivity.
  assert (Hv : JsMap.get (negotiationCache s1) "enc:br|gzip" = VBool false)
    by reflexivity.
  split; [exact Hk|]. split; [exact Hv|].
  destruct (stored_values_are_outcomes picky_client picky_client
              picky_client picky_client mime_db picky_subset)
    as (_ & _ & _ & Hserved).
  exact (Hserved s1 c "enc:br|gzip" Hk Hv).
Defined.

(** C8, on a cache that 1000 calls of [encodings] have filled: the next
    call misses, its key is not in the cache, the eviction deletes the
    oldest keys and not that one, and the key holds the result when the
    call returns, among 901 entries. *)
Lemma eviction_spares_new_entry_witness :
  let cs :=
    map (fun i => mkCall Encoding (request_with_encoding (Some (filler_key i)))
                    (Single ["gzip"])) (seq 0 1000) in
  let c := mkCall Encoding (request_with_encoding (Some "br"))
             (Single ["gzip"]) in
  let s := run_calls picky_client picky_client picky_client picky_client
             mime_db cs initial in
  JsMap.size (negotiationCache s) = 1000 /\
  In (EvCacheSet "enc:br|gzip" (VBool false)) (events (picky_call c s)) /\
  In (EvCacheDelete (Some "enc:000|gzip")) (events (picky_call c s)) /\
  ~ In "enc:br|gzip" (JsMap.keys (negotiationCache s)) /\
  ~ In (EvCacheDelete (Some "enc:br|gzip")) (events (picky_call c s)) /\
  JsMap.get (negotiationCache (final (picky_call c s))) "enc:br|gzip"
  = VBool false /\
  JsMap.size (negotiationCache (final (picky_call c s))) = 901.
Proof.
  intros cs c s.
  assert (Hsize : JsMap.size (negotiationCache s) = 1000).
  { vm_compute. reflexivity. }
  assert (Hin : In (EvCacheSet "enc:br|gzip" (VBool false))
                  (events (picky_call c s))).
  { vm_compute. repeat (first [left; reflexivity | right]). }
  assert (Hdel : In (EvCacheDelete (Some "enc:000|gzip"))
                  (events (picky_call c s))).
  { vm_compute. repeat (first [left; reflexivity | right]). }
  assert (Hleft :
            JsMap.size (negotiationCache (final (picky_call c s))) = 901).
  { vm_compute. reflexivity. }
  pose proof (proj1 (eviction_spares_new_entry picky_client picky_client
                       picky_client picky_client mime_db picky_subset)
                cs c "enc:br|gzip" (VBool false) Hin) as H.
  destruct H as (Habs & Hnodel & Hget).
  exact (conj Hsize (conj Hin (conj Hdel (conj Habs (conj Hnodel
           (conj Hget Hleft)))))).
Defined.

(** C2, on two orders of the same candidates: the keys differ. *)
Lemma cache_key_injective_on_plain_witness :
  cache_key MediaType "*/*" ["html"; "json"]
  = cache_key MediaType "*/*" ["json"; "html"]
  <-> MediaType = MediaType /\ "*/*" = "*/*" /\
      ["html"; "json"] = ["json"; "html"].
Proof.
  apply cache_key_injective_on_plain.
  - discriminate.
  - discriminate.
  - reflexivity.
  - reflexivity.
  - intros H. exfalso. apply H. reflexivity.
Defined.

(** C2 as stated fails for tokens that hold a separator: two different
    candidate sequences, and two different header values, with one key. *)
Lemma cache_key_collisions :
  (cache_key MediaType "*/*" ["a/b,c/d"; "e/f"]
   = cache_key MediaType "*/*" ["a/b"; "c/d,e/f"] /\
   ["a/b,c/d"; "e/f"] <> ["a/b"; "c/d,e/f"]) /\
  (cache_key Language "en" ["x|y"; "z"]
   = cache_key Language "en|x" ["y"; "z"] /\
   "en" <> "en|x").
Proof. repeat split; discriminate. Qed.

(** [types] writes no family tag: an [Accept] value that starts like one
    gives a key of another family. *)
Lemma types_key_untagged :
  cache_key MediaType "enc:gzip" ["a"; "b"]
  = cache_key Encoding "gzip" ["a"; "b"].
Proof. reflexivity. Qed.

(** C1, on [accept.types(['html', 'json'])] called twice under
    [Accept: */*]: the second call is served from the cache and returns
    the fresh result. *)
Lemma cache_transparent_on_plain_calls_witness :
  let c := mkCall MediaType (request_with_accept (Some "*/*"))
             (Single ["html"; "json"]) in
  let s1 := run_calls (wildcard_client "*/*") (wildcard_client "*")
              (wildcard_client "*") (wildcard_client "*") mime_db
              [c] initial in
  events (client_call c s1) = [EvCacheGet "*/*|html,json"] /\
  result (client_call c s1)
  = uncached (wildcard_client "*/*") (wildcard_client "*")
      (wildcard_client "*") (wildcard_client "*") mime_db c.
Proof.
  intros c s1. split; [reflexivity|].
  assert (Hc : plain_call c).
  { split; [reflexivity|]. intros _. reflexivity. }
  apply (proj1 (cache_transparent_on_plain_calls (wildcard_client "*/*")
                  (wildcard_client "*") (wildcard_client "*")
                  (wildcard_client "*") mime_db) [c] c).
  - constructor; [exact Hc|constructor].
  - exact Hc.
Defined.

(** C1 as stated fails when two candidate sequences share a key: after
    [accept.types(['a/b,c/d', 'e/f'])], the call
    [accept.types(['a/b', 'c/d,e/f'])] under the same header is served
    the first call's result, which is not what it computes fresh (and is
    not one of its candidates). *)
Lemma cache_serves_colliding_key :
  let req := request_with_accept (Some "*/*") in
  let c1 := mkCall MediaType req (Single ["a/b,c/d"; "e/f"]) in
  let c2 := mkCall MediaType req (Single ["a/b"; "c/d,e/f"]) in
  let s1 := final (client_call c1 initial) in
  client_call c2 s1 = (VString "a/b,c/d", s1, [EvCacheGet "*/*|a/b,c/d,e/f"])
  /\ result (client_call c2 initial) = VString "a/b"
  /\ uncached (wildcard_client "*/*") (wildcard_client "*")
       (wildcard_client "*") (wildcard_client "*") mime_db c2
     = VString "a/b"
  /\ result (client_call c2 s1) <> result (client_call c2 initial).
Proof. vm_compute. repeat split. discriminate. Qed.

(* ===================================================================== *)
(** ** Concrete calls for the further properties *)
(* ===================================================================== *)

(** X4, on [accept.types('', 'text/html')] under [Accept: */*]. *)
Lemma no_candidates_full_list_witness :
  client_call
    (mkCall MediaType (request_with_accept (Some "*/*"))
       (Spread [""; "text/html"])) initial
  = (VArray ["*/*"], initial, [EvNegotiator MediaType (Some "*/*") None]).
Proof.
  apply (no_candidates_full_list (wildcard_client "*/*") (wildcard_client "*")
           (wildcard_client "*") (wildcard_client "*") mime_db MediaType).
  right. right. now exists ["text/html"].
Defined.

(** X5, on [accept.encodings(['gzip', 'deflate'])] with no
    [Accept-Encoding] header, for which the engine accepts neither. *)
Lemma tagged_family_without_header_witness :
  picky_call
    (mkCall Encoding (request_with_encoding None)
       (Single ["gzip"; "deflate"])) initial
  = (VBool false, initial,
     [EvNegotiator Encoding None (Some ["gzip"; "deflate"])]).
Proof.
  apply (tagged_family_without_header picky_client picky_client picky_client
           picky_client mime_db Encoding (request_with_encoding None)
           (Single ["gzip"; "deflate"]) ["gzip"; "deflate"] initial).
  - discriminate.
  - now left.
  - now left.
  - discriminate.
Defined.


(** X6, on [accept.types(['html', 'json'])] called twice under
    [Accept: */*]. *)
Lemma repeated_call_is_hit_witness :
  let c := mkCall MediaType (request_with_accept (Some "*/*"))
             (Single ["html"; "json"]) in
  let s1 := final (client_call c initial) in
  client_call c s1 = (VString "html", s1, [EvCacheGet "*/*|html,json"]).
Proof.
  intros c s1.
  apply (repeated_call_is_hit (wildcard_client "*/*") (wildcard_client "*")
           (wildcard_client "*") (wildcard_client "*") mime_db c initial
           "*/*|html,json"); reflexivity.
Defined.

(** X7, on two calls of [types] under [Accept: */*]: the second result
    is stored behind the first. *)
Lemma stored_result_is_newest_witness :
  let c1 := mkCall MediaType (request_with_accept (Some "*/*"))
              (Single ["html"; "json"]) in
  let c2 := mkCall MediaType (request_with_accept (Some "*/*"))
              (Single ["json"; "html"]) in
  let s := run_calls (wildcard_client "*/*") (wildcard_client "*")
             (wildcard_client "*") (wildcard_client "*") mime_db
             [c1] initial in
  negotiationCache (final (client_call c2 s))
  = [("*/*|html,json", VString "html"); ("*/*|json,html", VString "json")].
Proof.
  intros c1 c2 s.
  assert (Hin : In (EvCacheSet "*/*|json,html" (VString "json"))
                  (events (client_call c2 s))).
  { vm_compute. repeat (first [left; reflexivity | right]). }
  exact (stored_result_is_newest (wildcard_client "*/*")
           (wildcard_client "*") (wildcard_client "*") (wildcard_client "*")
           mime_db wildcard_subset [c1] c2 _ _ Hin).
Defined.

(** X10, on [encodings] and [charsets] with the same header value and
    the same candidates. *)
Lemma tagged_families_keep_apart_witness : "enc:x|a" <> "chr:x|a".
Proof.
  apply (tagged_families_keep_apart
           (mkCall Encoding (mkRequest (mkHeaders None (Some "x") None None))
              (Single ["a"]))
           (mkCall Charset (mkRequest (mkHeaders None None (Some "x") None))
              (Single ["a"])));
    try discriminate; reflexivity.
Defined.

(** X11, on [accept.types(['html', 'json'])] under [Accept: */*]. *)
Lemma result_is_own_token_or_false_witness :
  let c := mkCall MediaType (request_with_accept (Some "*/*"))
             (Single ["html"; "json"]) in
  result (client_call c initial) = VBool false \/
  exists token,
    result (client_call c initial) = VString token /\
    In token ["html"; "json"].
Proof.
  intros c.
  apply (result_is_own_token_or_false (wildcard_client "*/*")
           (wildcard_client "*") (wildcard_client "*") (wildcard_client "*")
           mime_db wildcard_subset [] c).
  - constructor.
  - split; [reflexivity|]. intros _. reflexivity.
  - now left.
  - discriminate.
Defined.

(** X12, on [accept.types(['zzz', 'yyy'])] under [Accept: */*]. *)
Lemma unresolvable_types_rejected_witness :
  result
    (client_call
       (mkCall MediaType (request_with_accept (Some "*/*"))
          (Single ["zzz"; "yyy"])) initial)
  = VBool false.
Proof.
  apply (unresolvable_types_rejected (wildcard_client "*/*")
           (wildcard_client "*") (wildcard_client "*") (wildcard_client "*")
           mime_db wildcard_subset [] (request_with_accept (Some "*/*"))
           (Single ["zzz"; "yyy"]) ["zzz"; "yyy"]).
  - constructor.
  - split; [reflexivity|]. intros _. reflexivity.
  - now left.
  - discriminate.
  - reflexivity.
  - intros t [<-|[<-|[]]]; reflexivity.
Defined.

(** X13, on [accept.types(['zzz', 'html', 'json'])] under
    [Accept: */*]: the engine is asked about [text/html] and
    [application/json] only. *)
Lemma types_hands_valid_mimes_witness :
  In (EvNegotiator MediaType (Some "*/*")
        (Some ["text/html"; "application/json"]))
     (events
        (client_types (Accepts (request_with_accept (Some "*/*")))
           (Single ["zzz"; "html"; "json"]) initial)).
Proof.
  apply (types_hands_valid_mimes (wildcard_client "*/*")
           (wildcard_client "*") (wildcard_client "*") (wildcard_client "*")
           mime_db [] (request_with_accept (Some "*/*"))
           (Single ["zzz"; "html"; "json"]) ["zzz"; "html"; "json"] "*/*").
  - reflexivity.
  - simpl. lia.
  - reflexivity.
  - discriminate.
  - reflexivity.
Defined.
